(** * gval: an embeddable expression language, embedded in Rocq

    The development follows the Go sources file by file:
    - the Go runtime the sources lean on (floats, strings, [fmt], [strconv],
      [reflect], [text/scanner]) and the values an expression works on;
    - the operator registry ([Language]) and its composition;
    - [parse.go]: the precedence parser and the literal/selector extensions;
    - [gval.go]: the built-in dialects and the [cfa]/[cfm] filter operators;
    - [tolerant.go]: missing-field policies and the tolerant comparisons;
    - the properties of the engine, one group per topic. *)

From Stdlib Require Import ZArith String Ascii List Bool Floats Lia.
From Stdlib Require Import SpecFloat FloatOps.
From stdpp Require Import gmap strings.
Import ListNotations.

Set Warnings "-register-all".

Local Open Scope string_scope.
Local Open Scope list_scope.

(** ** The Go runtime *)

(** A Go [rune]; the token kinds of [text/scanner] are the negative ones. *)
Definition rune := Z.

Definition scanner_EOF : rune := (-1)%Z.
Definition scanner_Ident : rune := (-2)%Z.
Definition scanner_Int : rune := (-3)%Z.
Definition scanner_Float : rune := (-4)%Z.
Definition scanner_Char : rune := (-5)%Z.
Definition scanner_String : rune := (-6)%Z.
Definition scanner_RawString : rune := (-7)%Z.

Definition rune_of_ascii (c : ascii) : rune := Z.of_N (N_of_ascii c).
Definition ascii_of_rune (r : rune) : ascii := ascii_of_N (Z.to_N r).
Definition string_of_rune (r : rune) : string := String (ascii_of_rune r) EmptyString.

Definition in_range (lo hi : nat) (c : ascii) : bool :=
  (lo <=? nat_of_ascii c)%nat && (nat_of_ascii c <=? hi)%nat.
Definition isDigit (c : ascii) : bool := in_range 48 57 c.
Definition isLetter (c : ascii) : bool := in_range 65 90 c || in_range 97 122 c.
Definition isIdentStart (c : ascii) : bool := isLetter c || Ascii.eqb c "_".
Definition isIdentPart (c : ascii) : bool := isIdentStart c || isDigit c.
Definition isWhitespace (c : ascii) : bool :=
  Ascii.eqb c " " || (nat_of_ascii c =? 9)%nat || (nat_of_ascii c =? 10)%nat
  || (nat_of_ascii c =? 13)%nat.

Definition quote_char : ascii := ascii_of_nat 34.
Definition tick_char : ascii := ascii_of_nat 39.
Definition backquote_char : ascii := ascii_of_nat 96.
Definition backslash_char : ascii := ascii_of_nat 92.

(** *** strings *)

Definition strings_HasPrefix (s pre : string) : bool := String.prefix pre s.

Definition strings_HasSuffix (s suf : string) : bool :=
  (String.length suf <=? String.length s)%nat
  && String.eqb (substring (String.length s - String.length suf) (String.length suf) s) suf.

Fixpoint strings_Contains (s sub : string) : bool :=
  String.prefix sub s
  || match s with
     | EmptyString => false
     | String _ s' => strings_Contains s' sub
     end.

Fixpoint strings_Join (l : list string) (sep : string) : string :=
  match l with
  | [] => EmptyString
  | [x] => x
  | x :: rest => x ++ sep ++ strings_Join rest sep
  end.

(** Byte-wise order of Go strings. *)
Fixpoint string_ltb (a b : string) : bool :=
  match a, b with
  | EmptyString, EmptyString => false
  | EmptyString, String _ _ => true
  | String _ _, EmptyString => false
  | String x a', String y b' =>
      (nat_of_ascii x <? nat_of_ascii y)%nat
      || (Ascii.eqb x y && string_ltb a' b')
  end.
Definition string_leb (a b : string) : bool := negb (string_ltb b a).

(** *** numbers *)

(** [float64(z)]: the nearest double, ties to even. *)
Definition Z2float (z : Z) : float := SF2Prim (binary_normalize prec emax z 0 false).

(** The integer a finite float truncates to (towards zero), as an [int64]
    conversion takes it; [None] on NaN and the infinities. *)
Definition float_trunc (f : float) : option Z :=
  match Prim2SF f with
  | S754_zero _ => Some 0%Z
  | S754_finite sg m e =>
      let a := if (0 <=? e)%Z then (Z.pos m * 2 ^ e)%Z else (Z.pos m / 2 ^ (- e))%Z in
      Some (if sg then (- a)%Z else a)
  | _ => None
  end.

Definition float_is_integral (f : float) : bool :=
  match float_trunc f with
  | Some z => PrimFloat.eqb (Z2float z) f
  | None => false
  end.

Fixpoint digits_to_Z (acc : Z) (s : string) : option Z :=
  match s with
  | EmptyString => Some acc
  | String c s' =>
      if isDigit c
      then digits_to_Z (10 * acc + Z.of_nat (nat_of_ascii c - 48))%Z s'
      else None
  end.

Definition digit_string (s : string) : option Z :=
  match s with
  | EmptyString => None
  | _ => digits_to_Z 0 s
  end.

(** [strconv.Atoi]: an optional sign and decimal digits, within [int]. *)
Definition strconv_Atoi (s : string) : option Z :=
  let signed :=
    match s with
    | String "-" s' => option_map Z.opp (digit_string s')
    | String "+" s' => digit_string s'
    | _ => digit_string s
    end in
  match signed with
  | Some z => if ((- 2 ^ 63 <=? z) && (z <? 2 ^ 63))%Z then Some z else None
  | None => None
  end.

Fixpoint Z_digits (fuel : nat) (n : Z) (acc : string) : string :=
  match fuel with
  | O => acc
  | S fuel' =>
      let acc' := String (ascii_of_N (48 + Z.to_N (n mod 10))) acc in
      if (n <? 10)%Z then acc' else Z_digits fuel' (n / 10)%Z acc'
  end.

(** Decimal rendering of an integer ([%d], and [%v] of an [int]). *)
Definition Z_to_string (z : Z) : string :=
  let n := Z.abs z in
  let d := Z_digits (S (Z.to_nat (Z.log2 n))) n EmptyString in
  if (z <? 0)%Z then String "-" d else d.

(** ** Values

    What an [interface{}] holds: the input of an expression and every
    intermediate result.  Slices are references into a [heap] of backing
    arrays, because [cfa] and [cfm] write to the array their operand shares
    with the caller's input; maps are never written by the engine once built
    and are kept by value, as association lists with the first binding of a
    key the live one.  Values of user-defined types (structs, [Selector]
    implementations, functions, [time.Time]) and nil slices or maps are
    outside the model. *)

Abbreviation addr := nat.

Inductive value : Type :=
| VNil                                   (* the nil interface *)
| VBool (b : bool)
| VFloat (f : float)                     (* float64 *)
| VInt (n : Z)                           (* int *)
| VString (s : string)
| VSlice (p : addr)                      (* []interface{} *)
| VSlices (p : addr)                     (* [][]interface{} *)
| VMaps (p : addr)                       (* []map[string]interface{} *)
| VMap (m : list (string * value))       (* map[string]interface{} *)
| VMapAny (m : list (value * value)).    (* map[interface{}]interface{} *)

(** The backing arrays, by address. *)
Abbreviation heap := (list (list value)).

Definition alloc (l : list value) (h : heap) : addr * heap :=
  (length h, h ++ [l]).

(** The backing array of a slice value. *)
Definition cell (h : heap) (p : addr) : list value := default [] (h !! p).

(** An [error]: the format and the arguments [fmt.Errorf] was given, not
    rendered. *)
Inductive goerror : Type :=
| Errorf (format : string) (args : list fmtarg)
with fmtarg : Type :=
| AV (v : value)
| AS (s : string)
| AZ (n : Z)
| AE (e : goerror).

Definition error := option goerror.

(** A [context.Context], as far as an evaluator can observe it: [ctx.Err()]. *)
Record context := { ctx_Err : error }.

Definition context_Background : context := {| ctx_Err := None |}.
Definition context_Canceled : context :=
  {| ctx_Err := Some (Errorf "context canceled" []) |}.

(** A Go call returning [(interface{}, error)] that reads and may write the
    heap. *)
Definition result := (value * error)%type.
Definition Eff := heap -> result * heap.

Definition ret (v : value) : Eff := fun h => ((v, None), h).
Definition raise (e : goerror) : Eff := fun h => ((VNil, Some e), h).
Definition pure (r : result) : Eff := fun h => (r, h).

(** [x, err := m; if err != nil { return nil, err }; k x] *)
Definition bindE (m : Eff) (k : value -> Eff) : Eff :=
  fun h =>
    match m h with
    | ((v, None), h1) => k v h1
    | ((_, Some e), h1) => ((VNil, Some e), h1)
    end.

Notation "'try' x ':=' m 'in' k" := (bindE m (fun x => k))
  (at level 10, x name, m at level 100, k at level 200).

(** A compiled expression: [func(c context.Context, parameter interface{})
    (interface{}, error)]. *)
Definition Evaluable := context -> value -> Eff.
Definition infixBuilder := Evaluable -> Evaluable -> Evaluable + goerror.

Definition p_Const (v : value) : Evaluable := fun _ _ => ret v.

(** Modelled from the spec (section 5): an evaluator checks the cancellation
    handle before it begins and before each sub-evaluation, and returns the
    handle's error at once.  A handle is observed through [ctx.Err()] alone,
    which does not change during a run, so the check at the beginning stands
    for the later ones.  The evaluators below whose code is not among the
    sources are built with it. *)
Definition checked (e : Evaluable) : Evaluable :=
  fun c v =>
    match ctx_Err c with
    | Some err => raise err
    | None => e c v
    end.

(** *** map lookups *)

Fixpoint map_get (k : string) (m : list (string * value)) : option value :=
  match m with
  | [] => None
  | (k', v) :: m' => if String.eqb k k' then Some v else map_get k m'
  end.

Fixpoint map_set (k : string) (v : value) (m : list (string * value))
  : list (string * value) :=
  match m with
  | [] => [(k, v)]
  | (k', v') :: m' =>
      if String.eqb k k' then (k, v) :: m' else (k', v') :: map_set k v m'
  end.

(** [o[k]] on a [map[interface{}]interface{}] with a string key: the entry
    whose key is that string. *)
Fixpoint mapany_get (k : string) (m : list (value * value)) : option value :=
  match m with
  | [] => None
  | (VString k', v) :: m' => if String.eqb k k' then Some v else mapany_get k m'
  | _ :: m' => mapany_get k m'
  end.

(** *** reflect *)

(** [reflect.ValueOf(v).IsZero()] for a non-nil [v]. *)
Definition IsZero (v : value) : bool :=
  match v with
  | VNil => true
  | VBool b => negb b
  | VFloat f => PrimFloat.eqb f 0
  | VInt n => (n =? 0)%Z
  | VString s => String.eqb s EmptyString
  | _ => false
  end.

(** The condition the sources write [x == nil || reflect.ValueOf(x).IsZero()]. *)
Definition nil_or_zero (x : value) : bool :=
  match x with
  | VNil => true
  | _ => IsZero x
  end.

(** [a == false], [a == true] on an [interface{}]: a bool of that value. *)
Definition is_bool (b : bool) (a : value) : bool :=
  match a with
  | VBool x => Bool.eqb x b
  | _ => false
  end.

Definition is_nil (a : value) : bool :=
  match a with
  | VNil => true
  | _ => false
  end.

(** ** What is taken from outside

    Functions of Go's standard library that are not modelled in full, and
    functions of the repository that the sources call but do not contain.
    Everything below that depends on them takes them as a parameter. *)
Record Externals := {
  (** [math.Pow], [math.Mod] *)
  math_Pow : float -> float -> float;
  math_Mod : float -> float -> float;
  (** [strconv.ParseFloat] on texts other than plain decimal digits *)
  ParseFloat_other : string -> float * error;
  (** [strconv.Unquote] on literals with escapes *)
  Unquote_other : string -> string * error;
  (** [%v] of a float that is not a small integer, and of slices and maps *)
  fmt_float : float -> string;
  fmt_composite : heap -> value -> string;
  (** [Scanner.Scan] on text that is not ASCII, and on numbers with a base
      prefix or digit separators: the token's kind, its text, the rest *)
  scan_other : list ascii -> rune * string * list ascii;
  (** [int64(f)], [uint64(f)] where [f] is outside the target type *)
  int64_overflow : float -> Z;
  uint64_overflow : float -> Z;
  (** the loop over the layouts of [time.ParseInLocation] in [date] *)
  time_Parse : string -> result;
  (** [regEx], [notRegEx], [matchOp], [endsWithOp]: registered by [text],
      defined outside the sources at hand *)
  regEx : infixBuilder;
  notRegEx : infixBuilder;
  matchOp : string -> string -> result;
  endsWithOp : string -> string -> result;
  (** [reflect.DeepEqual] on two slices or on two maps of one type: whether
      they are the same object counts there, and cycles are followed *)
  DeepEqual_composite : heap -> value -> value -> bool
}.

Section Runtime.

Variable X : Externals.

(** [reflect.DeepEqual]: values of different dynamic types are unequal; nil
    equals nil; scalars of one type are compared with [==] (so a NaN is
    unequal to itself); for two slices or two maps of one type see
    [DeepEqual_composite]. *)
Definition reflect_DeepEqual (h : heap) (a b : value) : bool :=
  match a, b with
  | VNil, VNil => true
  | VBool x, VBool y => Bool.eqb x y
  | VFloat x, VFloat y => PrimFloat.eqb x y
  | VInt x, VInt y => (x =? y)%Z
  | VString x, VString y => String.eqb x y
  | VSlice _, VSlice _ | VSlices _, VSlices _ | VMaps _, VMaps _
  | VMap _, VMap _ | VMapAny _, VMapAny _ => DeepEqual_composite X h a b
  | _, _ => false
  end.

(** [strconv.ParseFloat(s, 64)]: exact on decimal digit strings. *)
Definition strconv_ParseFloat (s : string) : float * error :=
  match digit_string s with
  | Some z =>
      if (String.length s <=? 300)%nat then (Z2float z, None) else ParseFloat_other X s
  | None => ParseFloat_other X s
  end.

Definition plain_body (stop : ascii) (body : list ascii) : bool :=
  forallb (fun c => negb (Ascii.eqb c stop) && negb (Ascii.eqb c backslash_char)
                    && negb (nat_of_ascii c =? 10)%nat && negb (nat_of_ascii c =? 13)%nat)
          body.

(** [strconv.Unquote]: the text between the quotes when it has no escape. *)
Definition strconv_Unquote (s : string) : string * error :=
  match list_ascii_of_string s with
  | q :: rest =>
      match rev rest with
      | q' :: ydob =>
          let body := rev ydob in
          if Ascii.eqb q q' && plain_body q body
             && (Ascii.eqb q quote_char || Ascii.eqb q backquote_char
                 || (Ascii.eqb q tick_char && (length body =? 1)%nat))
          then (string_of_list_ascii body, None)
          else Unquote_other X s
      | [] => Unquote_other X s
      end
  | [] => Unquote_other X s
  end.

(** [fmt.Sprintf("%v", v)] *)
Definition Sprint (h : heap) (v : value) : string :=
  match v with
  | VNil => "<nil>"
  | VBool true => "true"
  | VBool false => "false"
  | VInt n => Z_to_string n
  | VString s => s
  | VFloat f =>
      match Prim2SF f, float_trunc f with
      | S754_zero false, _ => "0"
      | S754_finite _ _ _, Some z =>
          if float_is_integral f && (Z.abs z <? 1000000)%Z
          then Z_to_string z
          else fmt_float X f
      | _, _ => fmt_float X f
      end
  | _ => fmt_composite X h v
  end.

Definition in_int64 (z : Z) : bool := ((- 2 ^ 63 <=? z) && (z <? 2 ^ 63))%Z.
Definition int64_wrap (z : Z) : Z := ((z + 2 ^ 63) mod 2 ^ 64 - 2 ^ 63)%Z.

(** [int64(f)] and [uint64(f)] of a float. *)
Definition toInt64 (f : float) : Z :=
  match float_trunc f with
  | Some z => if in_int64 z then z else int64_overflow X f
  | None => int64_overflow X f
  end.

Definition toUint64 (f : float) : Z :=
  match float_trunc f with
  | Some z => if ((0 <=? z) && (z <? 2 ^ 64))%Z then z else uint64_overflow X f
  | None => uint64_overflow X f
  end.

(** *** The token source: [text/scanner] with Go tokens

    Identifiers, decimal integer and float literals, interpreted strings,
    characters, raw strings, comments skipped as blanks, and any other
    character as itself, over ASCII text. *)

Fixpoint take_while (f : ascii -> bool) (s : list ascii) : list ascii * list ascii :=
  match s with
  | c :: s' =>
      if f c then let '(t, r) := take_while f s' in (c :: t, r) else ([], s)
  | [] => ([], [])
  end.

(** The rest of a quoted literal, up to and with the closing quote; an escaped
    character never closes it. *)
Fixpoint scan_quoted (stop : ascii) (escapes : bool) (s : list ascii)
  : list ascii * list ascii :=
  match s with
  | [] => ([], [])
  | c :: s' =>
      if Ascii.eqb c stop then ([c], s')
      else if escapes && Ascii.eqb c backslash_char then
        match s' with
        | d :: s'' => let '(t, r) := scan_quoted stop escapes s'' in (c :: d :: t, r)
        | [] => ([c], [])
        end
      else let '(t, r) := scan_quoted stop escapes s' in (c :: t, r)
  end.

Fixpoint skip_block_comment (s : list ascii) : list ascii :=
  match s with
  | "*"%char :: ("/"%char :: r) => r
  | _ :: s' => skip_block_comment s'
  | [] => []
  end.

(** Blanks and comments before a token. *)
Fixpoint skip_blanks (fuel : nat) (s : list ascii) : list ascii :=
  match fuel with
  | O => s
  | S fuel' =>
      match s with
      | c :: s' =>
          if isWhitespace c then skip_blanks fuel' s'
          else match c, s' with
               | "/"%char, "/"%char :: r =>
                   skip_blanks fuel' (snd (take_while (fun c => negb (nat_of_ascii c =? 10)%nat) r))
               | "/"%char, "*"%char :: r => skip_blanks fuel' (skip_block_comment r)
               | _, _ => s
               end
      | [] => []
      end
  end.

Definition scan_exponent (s : list ascii) : list ascii * list ascii :=
  match s with
  | c :: r =>
      if Ascii.eqb c "e" || Ascii.eqb c "E" then
        let '(sg, r1) :=
          match r with
          | d :: r' => if Ascii.eqb d "+" || Ascii.eqb d "-" then ([d], r') else ([], r)
          | [] => ([], r)
          end in
        let '(ds, r2) := take_while isDigit r1 in
        (c :: sg ++ ds, r2)
      else ([], s)
  | [] => ([], s)
  end.

(** A decimal number: digits, an optional fraction, an optional exponent. *)
Definition scan_number (s : list ascii) : rune * list ascii * list ascii :=
  let '(ds, r1) := take_while isDigit s in
  let '(frac, r2) :=
    match r1 with
    | "."%char :: r => let '(fs, r') := take_while isDigit r in ("."%char :: fs, r')
    | _ => ([], r1)
    end in
  let '(ex, r3) := scan_exponent r2 in
  (match frac, ex with
   | [], [] => scanner_Int
   | _, _ => scanner_Float
   end, ds ++ frac ++ ex, r3).

(** Number syntax that is left to [scan_other]: a base prefix, or an
    underscore right after the digits read. *)
Definition exotic_number (s rest : list ascii) : bool :=
  match s with
  | "0"%char :: c :: _ =>
      existsb (Ascii.eqb c) ["x"; "X"; "b"; "B"; "o"; "O"]%char
  | _ => false
  end
  || match rest with
     | "_"%char :: _ => true
     | _ => false
     end.

(** [Scanner.Scan]: the next token's kind, its text, and the rest. *)
Definition scanner_Scan (src : list ascii) : rune * string * list ascii :=
  if negb (forallb (fun c => (nat_of_ascii c <? 128)%nat) src) then scan_other X src
  else
    match skip_blanks (S (length src)) src with
    | [] => (scanner_EOF, EmptyString, [])
    | (c :: rest) as s =>
        if isIdentStart c then
          let '(t, r) := take_while isIdentPart s in
          (scanner_Ident, string_of_list_ascii t, r)
        else if isDigit c
                || (Ascii.eqb c "." && match rest with d :: _ => isDigit d | [] => false end)
        then
          let '(k, t, r) := scan_number s in
          if exotic_number s r then scan_other X src else (k, string_of_list_ascii t, r)
        else if Ascii.eqb c quote_char then
          let '(t, r) := scan_quoted quote_char true rest in
          (scanner_String, string_of_list_ascii (c :: t), r)
        else if Ascii.eqb c tick_char then
          let '(t, r) := scan_quoted tick_char true rest in
          (scanner_Char, string_of_list_ascii (c :: t), r)
        else if Ascii.eqb c backquote_char then
          let '(t, r) := scan_quoted backquote_char false rest in
          (scanner_RawString, string_of_list_ascii (c :: t), r)
        else (rune_of_ascii c, String c EmptyString, rest)
    end.

End Runtime.

(** ** The parser's state and methods

    A Go [*Parser] is split in three: the [Language] it parses (fixed during a
    parse), the state of its token source ([PState]: the unread text, the last
    token and the backtrack buffer), and its methods ([Parser]), which the
    extensions stored in a [Language] call back into.  A parse either ends
    with a value, fails with an error, or exhausts the recursion budget. *)

Inductive outcome (A : Type) : Type :=
| Done (a : A)
| Failed (e : goerror)
| OutOfFuel.
Arguments Done {A} a.
Arguments Failed {A} e.
Arguments OutOfFuel {A}.

Record PState := {
  src : list ascii;          (* the text not yet scanned *)
  lastScan : rune;           (* the kind of the last token *)
  tokenText : string;        (* its text *)
  camouflage : error         (* set while the last token is pushed back *)
}.

Definition Parse (A : Type) : Type := PState -> outcome (A * PState).

Definition retP {A} (a : A) : Parse A := fun s => Done (a, s).
Definition failP {A} (e : goerror) : Parse A := fun _ => Failed e.
Definition bindP {A B} (m : Parse A) (k : A -> Parse B) : Parse B :=
  fun s =>
    match m s with
    | Done (a, s') => k a s'
    | Failed e => Failed e
    | OutOfFuel => OutOfFuel
    end.

Notation "x <- m ;; k" := (bindP m (fun x => k))
  (at level 100, m at next level, right associativity).
Notation "m ;;; k" := (bindP m (fun _ => k))
  (at level 100, right associativity).

(** [p.Expected(unit, expected...)]: the error naming the token found and the
    tokens that were acceptable. *)
Definition Expected (what : string) (expected : list rune) (s : PState) : goerror :=
  Errorf "unexpected %s while scanning %s expected %s"
         (AZ (lastScan s) :: AS what :: map AZ expected).

(** Modelled from the spec: the parser's token-source methods, whose file is
    not among the sources.  [Scan] returns the pushed-back token if there is
    one (the one-token pushback buffer of the design notes), else scans;
    [Camouflage] pushes the last token back, remembering the error to report
    should nobody accept it; [Peek] and [Next] work on characters, as
    [parseOperator] uses them to extend a symbol operator. *)
Definition Scan (X : Externals) : Parse rune :=
  fun s =>
    match camouflage s with
    | Some _ =>
        Done (lastScan s, {| src := src s; lastScan := lastScan s;
                             tokenText := tokenText s; camouflage := None |})
    | None =>
        let '(tok, txt, rest) := scanner_Scan X (src s) in
        Done (tok, {| src := rest; lastScan := tok; tokenText := txt; camouflage := None |})
    end.

Definition TokenText : Parse string := fun s => Done (tokenText s, s).

Definition Camouflage (what : string) (expected : list rune) : Parse unit :=
  fun s => Done (tt, {| src := src s; lastScan := lastScan s; tokenText := tokenText s;
                        camouflage := Some (Expected what expected s) |}).

Definition failExpected {A} (what : string) (expected : list rune) : Parse A :=
  fun s => Failed (Expected what expected s).

(** The methods of a parser that extensions call. *)
Record Parser := {
  pFuel : nat;
  pParseExpression : Parse Evaluable;
  pParseNextExpression : Parse Evaluable;
  pPrefix : rune + string -> option (Parse Evaluable);   (* p.prefixes[key] *)
  pVar : list Evaluable -> Evaluable                      (* p.Var(keys...) *)
}.

Definition extension := Parser -> Parse Evaluable.
Definition postfixFn := Parser -> Evaluable -> Parse Evaluable.

(** ** The operator registry

    Modelled from the spec: the [Language] type, its constructors and
    [NewLanguage] are defined in a file that is not among the sources.  A
    Language maps token kinds and names to prefixes and names to operators
    (sections 3, 4.1 and 9 of the design).  An operator is of one kind: an
    infix operator with its numeric, boolean, text and generic forms and its
    short-circuit predicate, each of which may be missing; an operator over
    unevaluated operands; or a postfix operator.  The precedences are kept by
    name beside them; then come the variable selector, the initial and the
    default extension. *)
Record infixForms := {
  formNumber : option (float -> float -> result);
  formBoolean : option (bool -> bool -> result);
  formText : option (string -> string -> result);
  formArbitrary : option (value -> value -> Eff);
  formShortCircuit : option (value -> value * bool)
}.

Definition noForms : infixForms :=
  {| formNumber := None; formBoolean := None; formText := None; formArbitrary := None;
     formShortCircuit := None |}.

Inductive operatorDef : Type :=
| DefInfix (forms : infixForms)
| DefDirect (builder : infixBuilder)
| DefPostfix (f : postfixFn).

Record Language := {
  prefixes : gmap (rune + string) extension;
  operators : gmap string operatorDef;
  precedences : gmap string Z;
  selector : option (list Evaluable -> Evaluable);
  init : option extension;
  def : option extension
}.

Definition newLanguage : Language :=
  {| prefixes := ∅; operators := ∅; precedences := ∅; selector := None;
     init := None; def := None |}.

Definition later {A} (new old : option A) : option A :=
  match new with
  | Some _ => new
  | None => old
  end.

(** Modelled from the spec: what a name stands for when a later Language
    defines it again.  The later definition takes the name over; two infix
    operators are one operator, in which each form is the later one where the
    later Language has that form (this is how [+] is at once the numeric
    operator of [arithmetic] and the text operator of [text]). *)
Definition mergeForms (new old : infixForms) : infixForms :=
  {| formNumber := later (formNumber new) (formNumber old);
     formBoolean := later (formBoolean new) (formBoolean old);
     formText := later (formText new) (formText old);
     formArbitrary := later (formArbitrary new) (formArbitrary old);
     formShortCircuit := later (formShortCircuit new) (formShortCircuit old) |}.

Definition mergeDef (new old : operatorDef) : operatorDef :=
  match new, old with
  | DefInfix n, DefInfix o => DefInfix (mergeForms n o)
  | _, _ => new
  end.

(** Modelled from the spec: composition merges the tables with right-biased
    override by exact name; [b] is the later Language. *)
Definition merge (acc b : Language) : Language :=
  {| prefixes := prefixes b ∪ prefixes acc;
     operators := union_with (fun new old => Some (mergeDef new old))
                    (operators b) (operators acc);
     precedences := precedences b ∪ precedences acc;
     selector := later (selector b) (selector acc);
     init := later (init b) (init acc);
     def := later (def b) (def acc) |}.

(** [NewLanguage(bases...)] *)
Definition NewLanguage (bases : list Language) : Language :=
  fold_left merge bases newLanguage.

(** Modelled from the spec: a prefix is keyed by the character itself when
    its name is one character that is no letter, by the name otherwise. *)
Definition makePrefixKey (name : string) : rune + string :=
  match name with
  | String c EmptyString => if isLetter c then inr name else inl (rune_of_ascii c)
  | _ => inr name
  end.

(** Modelled from the spec: the registration surface (section 6).  Each
    constructor is the Language with that one entry. *)
Definition withPrefix (k : rune + string) (e : extension) : Language :=
  {| prefixes := {[ k := e ]}; operators := ∅; precedences := ∅;
     selector := None; init := None; def := None |}.

Definition withOperator (name : string) (d : operatorDef) : Language :=
  {| prefixes := ∅; operators := {[ name := d ]}; precedences := ∅;
     selector := None; init := None; def := None |}.

Definition PrefixExtension (r : rune) (ext : extension) : Language :=
  withPrefix (inl r) ext.

Definition Constant (name : string) (v : value) : Language :=
  withPrefix (makePrefixKey name) (fun _ => retP (p_Const v)).

Definition PrefixOperator (name : string) (e : context -> value -> Eff) : Language :=
  withPrefix (makePrefixKey name)
    (fun p =>
       eval <- pParseNextExpression p ;;
       retP (checked (fun c v => try a := eval c v in e c a))).

(** The identifier extension: a registered prefix of that name (a constant, a
    function) takes the identifier, else it starts a variable path. *)
Definition PrefixMetaPrefix (r : rune)
    (ext : Parser -> Parse (string * Parse Evaluable)) : Language :=
  withPrefix (inl r)
    (fun p =>
       ca <- ext p ;;
       match pPrefix p (makePrefixKey (fst ca)) with
       | Some prefix => prefix
       | None => snd ca
       end).

Definition InfixNumberOperator (name : string) (f : float -> float -> result) : Language :=
  withOperator name
    (DefInfix {| formNumber := Some f; formBoolean := None; formText := None; formArbitrary := None;
                 formShortCircuit := None |}).

Definition InfixBoolOperator (name : string) (f : bool -> bool -> result) : Language :=
  withOperator name
    (DefInfix {| formNumber := None; formBoolean := Some f; formText := None; formArbitrary := None;
                 formShortCircuit := None |}).

Definition InfixTextOperator (name : string) (f : string -> string -> result) : Language :=
  withOperator name
    (DefInfix {| formNumber := None; formBoolean := None; formText := Some f; formArbitrary := None;
                 formShortCircuit := None |}).

Definition InfixOperator (name : string) (f : value -> value -> Eff) : Language :=
  withOperator name
    (DefInfix {| formNumber := None; formBoolean := None; formText := None; formArbitrary := Some f;
                 formShortCircuit := None |}).

Definition InfixShortCircuit (name : string) (f : value -> value * bool) : Language :=
  withOperator name
    (DefInfix {| formNumber := None; formBoolean := None; formText := None; formArbitrary := None;
                 formShortCircuit := Some f |}).

Definition InfixEvalOperator (name : string) (f : infixBuilder) : Language :=
  withOperator name (DefDirect f).

Definition PostfixOperator (name : string) (ext : postfixFn) : Language :=
  withOperator name (DefPostfix ext).

Definition Precedence (name : string) (prec : Z) : Language :=
  {| prefixes := ∅; operators := ∅; precedences := {[ name := prec ]};
     selector := None; init := None; def := None |}.

Definition VariableSelector (sel : list Evaluable -> Evaluable) : Language :=
  {| prefixes := ∅; operators := ∅; precedences := ∅; selector := Some sel;
     init := None; def := None |}.

(** The names under which some operator or precedence is registered, and the
    characters that make up the symbol operators. *)
Definition keys {A} (m : gmap string A) : list string := (map_to_list m).*1.

Definition operatorNames (l : Language) : list string :=
  keys (operators l) ++ keys (precedences l).

Definition operatorSymbols (names : list string) : list ascii :=
  filter (fun c => negb (isIdentPart c)) (concat (map list_ascii_of_string names)).

Definition precedenceOf (l : Language) (name : string) : Z :=
  default 0%Z (precedences l !! name).

(** The operator names of a Language, computed once per parser. *)
Record lexicon := { lxNames : list string; lxSymbols : list ascii }.

Definition lexiconOf (l : Language) : lexicon :=
  let names := operatorNames l in
  {| lxNames := names; lxSymbols := operatorSymbols names |}.

(** Modelled from the spec: a character is a symbol operation when it is a
    non-alphanumeric character of a registered operator name; a text is an
    operator prefix when some registered name starts with it. *)
Definition isSymbolOperation (lx : lexicon) (r : rune) : bool :=
  existsb (fun c => (rune_of_ascii c =? r)%Z) (lxSymbols lx).

Definition isOperatorPrefix (lx : lexicon) (op : string) : bool :=
  existsb (fun name => strings_HasPrefix name op) (lxNames lx).

(** ** [tolerant.go], first part: resolving a variable path *)

Inductive MissingFieldBehavior : Type :=
| ErrorOnMissingField     (* the default behavior - throw an error *)
| FalseOnMissingField     (* missing fields are false *)
| NilOnMissingField.      (* missing fields are nil *)

Definition handleMissingField (behavior : MissingFieldBehavior) (keyPath : list string)
  : result :=
  match behavior with
  | FalseOnMissingField => (VBool false, None)
  | NilOnMissingField => (VNil, None)
  | ErrorOnMissingField =>
      (VNil, Some (Errorf "unknown parameter %s" [AS (strings_Join keyPath ".")]))
  end.

(** [o[idx]] when [strconv.Atoi(k)] succeeds with [idx >= 0 && len(o) > idx]. *)
Definition index_cell (h : heap) (p : addr) (k : string) : option value :=
  let o := cell h p in
  match strconv_Atoi k with
  | Some idx =>
      if ((0 <=? idx) && (idx <? Z.of_nat (length o)))%Z then o !! Z.to_nat idx else None
  | None => None
  end.

(** Modelled from the spec: [reflectSelect], the reflective access of last
    resort, is not among the sources.  In the value model it reaches the typed
    slices by index; scalars and nil have nothing to select. *)
Definition reflectSelect (k : string) (o : value) (h : heap) : option value :=
  match o with
  | VSlices p => index_cell h p k
  | VMaps p => index_cell h p k
  | _ => None
  end.

(** The loop [for i, k := range keys] of the selector, from key [i] on, with
    [v] the value reached so far.  (The [Selector] arm has no counterpart:
    values with a lookup method of their own are outside the model.) *)
Fixpoint selectPath (behavior : MissingFieldBehavior) (keys : list string)
    (i : nat) (todo : list string) (v : value) (h : heap) : result :=
  match todo with
  | [] => (v, None)
  | k :: rest =>
      let missing := handleMissingField behavior (firstn (S i) keys) in
      let next o :=
        match o with
        | Some val => selectPath behavior keys (S i) rest val h
        | None => missing
        end in
      match v with
      | VMapAny o => next (mapany_get k o)
      | VMap o => next (map_get k o)
      | VSlice p => next (index_cell h p k)
      | _ => next (reflectSelect k v h)
      end
  end.

Section Engine.

Variable X : Externals.

(** Modelled from the spec: [EvalString] and [EvalStrings], the coercion
    helpers of the evaluation surface: evaluate, then render as text. *)
Definition EvalString (e : Evaluable) (c : context) (v : value) (h : heap)
  : (string * error) * heap :=
  match e c v h with
  | ((o, None), h1) => ((Sprint X h1 o, None), h1)
  | ((_, Some err), h1) => ((EmptyString, Some err), h1)
  end.

Fixpoint EvalStrings (path : list Evaluable) (c : context) (v : value) (h : heap)
  : (list string * error) * heap :=
  match path with
  | [] => (([], None), h)
  | e :: rest =>
      match EvalString e c v h with
      | ((s, None), h1) =>
          match EvalStrings rest c v h1 with
          | ((ss, None), h2) => ((s :: ss, None), h2)
          | ((_, Some err), h2) => (([], Some err), h2)
          end
      | ((_, Some err), h1) => (([], Some err), h1)
      end
  end.

(** [WithMissingFieldBehavior]: the selector that walks the path from the
    input value. *)
Definition selectorOf (behavior : MissingFieldBehavior) (path : list Evaluable)
  : Evaluable :=
  fun c v h =>
    match EvalStrings path c v h with
    | ((keys, None), h1) => (selectPath behavior keys 0 keys v h1, h1)
    | ((_, Some err), h1) => ((VNil, Some err), h1)
    end.

Definition WithMissingFieldBehavior (behavior : MissingFieldBehavior) : Language :=
  VariableSelector (selectorOf behavior).

(** Modelled from the spec: the default resolution of a variable path, whose
    file is not among the sources, is the hard error naming the path. *)
Definition variable (path : list Evaluable) : Evaluable :=
  checked (selectorOf ErrorOnMissingField path).

Definition Var (l : Language) (path : list Evaluable) : Evaluable :=
  match selector l with
  | Some sel => sel path
  | None => variable path
  end.

(** ** Operator dispatch

    Modelled from the spec (section 4.3): the coercions, and the evaluator an
    infix operator name compiles to. *)
Definition convertToFloat (v : value) : option float :=
  match v with
  | VFloat f => Some f
  | VInt n => Some (Z2float n)
  | VString s =>
      match strconv_ParseFloat X s with
      | (f, None) => Some f
      | (_, Some _) => None
      end
  | _ => None
  end.

Definition convertToBool (v : value) : option bool :=
  match v with
  | VBool b => Some b
  | VFloat f => Some (negb (PrimFloat.eqb f 0))
  | VInt n => Some (negb (n =? 0)%Z)
  | VString s =>
      if String.eqb s "true" || String.eqb s "TRUE" then Some true
      else if String.eqb s "false" || String.eqb s "FALSE" then Some false
      else None
  | _ => None
  end.

(** The type assertions [v.(float64)], [v.(bool)], [v.(string)]. *)
Definition asFloat (v : value) : option float :=
  match v with
  | VFloat f => Some f
  | _ => None
  end.

Definition asBool (v : value) : option bool :=
  match v with
  | VBool b => Some b
  | _ => None
  end.

Definition asString (v : value) : option string :=
  match v with
  | VString s => Some s
  | _ => None
  end.

(** A typed form, if registered and if both operands are of its type. *)
Definition typed {A} (form : option (A -> A -> result)) (x y : option A)
    (otherwise : Eff) : Eff :=
  match form, x, y with
  | Some f, Some x', Some y' => pure (f x' y')
  | _, _, _ => otherwise
  end.

(** The binary function of an infix operator.  A typed form applies to
    operands of its type, numbers before booleans before text, first as they
    are and then coerced; an operator with a generic form falls back on it,
    and one without fails with a type error. *)
Definition applyInfix (forms : infixForms) (name : string) (a b : value) : Eff :=
  let generic : Eff :=
    match formArbitrary forms with
    | Some f => f a b
    | None => raise (Errorf "invalid operation (%T) %s (%T)" [AV a; AS name; AV b])
    end in
  let textual : Eff :=
    match formText forms, formArbitrary forms with
    | Some f, None =>
        if is_nil a || is_nil b then generic
        else fun h => (f (Sprint X h a) (Sprint X h b), h)
    | _, _ => generic
    end in
  let coerced : Eff :=
    typed (formNumber forms) (convertToFloat a) (convertToFloat b)
      (typed (formBoolean forms) (convertToBool a) (convertToBool b) textual) in
  typed (formNumber forms) (asFloat a) (asFloat b)
    (typed (formBoolean forms) (asBool a) (asBool b)
       (typed (formText forms) (asString a) (asString b) coerced)).

(** The evaluator of [a name b]: the left operand first; with a short-circuit
    predicate registered, the predicate sees that value and may decide the
    result, the right operand unevaluated; otherwise the eager form runs,
    evaluating both sides. *)
Definition infixBuilderOf (forms : infixForms) (name : string) : infixBuilder :=
  fun a b =>
    inl (checked
           (fun c x =>
              let eager : Eff :=
                try av := a c x in
                try bv := b c x in
                applyInfix forms name av bv in
              match formShortCircuit forms with
              | None => eager
              | Some shortF =>
                  try av := a c x in
                  match shortF av with
                  | (v, true) => ret v
                  | (_, false) => eager
                  end
              end)).

Inductive operator : Type :=
| OpInfix (builder : infixBuilder) (prec : Z)
| OpPostfix (f : postfixFn) (prec : Z).

Definition isSome {A} (o : option A) : bool :=
  match o with
  | Some _ => true
  | None => false
  end.

(** [p.operators[op]]: the operator registered under the name, with the
    precedence of the name.  A name that only has a precedence is no
    operator. *)
Definition operatorOf (l : Language) (op : string) : option operator :=
  match operators l !! op with
  | Some (DefInfix forms) => Some (OpInfix (infixBuilderOf forms op) (precedenceOf l op))
  | Some (DefDirect builder) => Some (OpInfix builder (precedenceOf l op))
  | Some (DefPostfix f) => Some (OpPostfix f (precedenceOf l op))
  | None => None
  end.

(** ** The stage stack

    Modelled from the spec (section 4.2, step 4): pushing a stage first
    reduces the stack while the new precedence is less than or equal to the
    one on top, combining the popped left operand with the new operand. *)
Record stage := {
  stEvaluable : Evaluable;
  stInfixBuilder : option infixBuilder;
  stPrecedence : Z
}.

Definition stageStack := list stage.   (* the top is the head *)

Fixpoint push (stack : stageStack) (b : stage) : stageStack + goerror :=
  match stack with
  | a :: rest =>
      if (stPrecedence b <=? stPrecedence a)%Z then
        match stInfixBuilder a with
        | Some builder =>
            match builder (stEvaluable a) (stEvaluable b) with
            | inl eval =>
                push rest {| stEvaluable := eval; stInfixBuilder := stInfixBuilder b;
                             stPrecedence := stPrecedence b |}
            | inr e => inr e
            end
        | None => inr (Errorf "no operator on the stack" [])
        end
      else inl (b :: stack)
  | [] => inl [b]
  end.

Definition liftE {A} (r : A + goerror) : Parse A :=
  fun s =>
    match r with
    | inl a => Done (a, s)
    | inr e => Failed e
    end.

(** ** [parse.go] *)

Definition rune_of (c : string) : rune :=
  match c with
  | String a _ => rune_of_ascii a
  | EmptyString => scanner_EOF
  end.

(** A loop over the input gets as many rounds as there are characters left
    (each round consumes one, or ends the loop), and two more. *)
Definition rounds {A} (loop : nat -> Parse A) : Parse A :=
  fun s => loop (S (S (length (src s)))) s.

Definition noOperator (eval : Evaluable) : stage :=
  {| stEvaluable := eval; stInfixBuilder := None; stPrecedence := 0 |}.

(** The inner loop of [parseOperator]: [op] grows by the next character while
    that is a symbol and the longer text still starts a registered operator.
    Returns the operator text, [mustOp], and the unread text. *)
Fixpoint extendOperator (lx : lexicon) (op : string) (rest : list ascii)
  : string * bool * list ascii :=
  match rest with
  | c :: rest' =>
      if isSymbolOperation lx (rune_of_ascii c)
         && isOperatorPrefix lx (op ++ String c EmptyString)
      then let '(op', _, r) := extendOperator lx (op ++ String c EmptyString) rest' in
           (op', true, r)
      else (op, false, rest)
  | [] => (op, false, [])
  end.

(** [p.parseOperator(c, &stack, eval)]; the stack is returned with the stage. *)
Fixpoint parseOperator (n : nat) (l : Language) (lx : lexicon) (p : Parser)
    (stack : stageStack) (eval : Evaluable) : Parse (stage * stageStack) :=
  match n with
  | O => fun _ => OutOfFuel
  | S n' =>
      scan <- Scan X ;;
      op <- TokenText ;;
      found <-
        (if isSymbolOperation lx scan then
           fun s =>
             let '(op', mustOp, rest) := extendOperator lx op (src s) in
             Done (Some (op', mustOp),
                   if mustOp
                   then {| src := rest; lastScan := lastScan s;
                           tokenText := EmptyString; camouflage := camouflage s |}
                   else s)
         else if (scan =? scanner_Ident)%Z then retP (Some (op, false))
         else Camouflage "operator" [] ;;; retP None) ;;
      match found with
      | None => retP (noOperator eval, stack)
      | Some (op, mustOp) =>
          match operatorOf l op with
          | Some (OpInfix builder prec) =>
              retP ({| stEvaluable := eval; stInfixBuilder := Some builder;
                       stPrecedence := prec |}, stack)
          | Some (OpPostfix f prec) =>
              stack1 <- liftE (push stack {| stEvaluable := eval; stInfixBuilder := None;
                                             stPrecedence := prec |}) ;;
              match stack1 with
              | top :: rest =>
                  eval' <- f p (stEvaluable top) ;;
                  parseOperator n' l lx p rest eval'
              | [] => failP (Errorf "empty stack" [])
              end
          | None =>
              if mustOp then failP (Errorf "unknown operator %s" [AS op])
              else Camouflage "operator" [] ;;; retP (noOperator eval, stack)
          end
      end
  end.

(** [p.ParseExpression(c)]: operand, operator, push; done when the stage on
    top carries no operator. *)
Fixpoint ParseExpression_loop (n : nat) (l : Language) (lx : lexicon) (p : Parser)
    (stack : stageStack) : Parse Evaluable :=
  match n with
  | O => fun _ => OutOfFuel
  | S n' =>
      eval <- pParseNextExpression p ;;
      found <- rounds (fun k => parseOperator k l lx p stack eval) ;;
      stack1 <- liftE (push (snd found) (fst found)) ;;
      match stack1 with
      | top :: _ =>
          match stInfixBuilder top with
          | None => retP (stEvaluable top)
          | Some _ => ParseExpression_loop n' l lx p stack1
          end
      | [] => failP (Errorf "empty stack" [])
      end
  end.

Definition ParseExpression (l : Language) (lx : lexicon) (p : Parser) : Parse Evaluable :=
  rounds (fun n => ParseExpression_loop n l lx p []).

(** [p.ParseNextExpression(c)] *)
Definition ParseNextExpression (l : Language) (p : Parser) : Parse Evaluable :=
  scan <- Scan X ;;
  match prefixes l !! inl scan with
  | Some ex => ex p
  | None =>
      match def l with
      | Some d =>
          if (scan =? scanner_EOF)%Z then failExpected "extensions" [] else d p
      | None => failExpected "extensions" []
      end
  end.

(** [p.parse(c)] *)
Definition parse (l : Language) (p : Parser) : Parse Evaluable :=
  match init l with
  | Some i => i p
  | None => pParseExpression p
  end.

Definition parseString (p : Parser) : Parse Evaluable :=
  text <- TokenText ;;
  match strconv_Unquote X text with
  | (s, None) => retP (p_Const (VString s))
  | (_, Some err) => failP (Errorf "could not parse string: %w" [AE err])
  end.

Definition parseNumber (p : Parser) : Parse Evaluable :=
  text <- TokenText ;;
  match strconv_ParseFloat X text with
  | (n, None) => retP (p_Const (VFloat n))
  | (_, Some err) => failP err
  end.

Definition parseParentheses (p : Parser) : Parse Evaluable :=
  eval <- pParseExpression p ;;
  scan <- Scan X ;;
  if (scan =? rune_of ")")%Z then retP eval
  else failExpected "parentheses" [rune_of ")"].

(** [p.parseArguments(c)] *)
Fixpoint parseArguments_loop (n : nat) (p : Parser) (args : list Evaluable)
  : Parse (list Evaluable) :=
  match n with
  | O => fun _ => OutOfFuel
  | S n' =>
      arg <- pParseExpression p ;;
      scan <- Scan X ;;
      if (scan =? rune_of ")")%Z then retP (args ++ [arg])
      else if (scan =? rune_of ",")%Z then parseArguments_loop n' p (args ++ [arg])
      else failExpected "arguments" [rune_of ")"; rune_of ","]
  end.

Definition parseArguments (p : Parser) : Parse (list Evaluable) :=
  scan <- Scan X ;;
  if (scan =? rune_of ")")%Z then retP []
  else Camouflage "scan arguments" [rune_of ")"] ;;;
       rounds (fun n => parseArguments_loop n p []).

(** Modelled from the spec: [callEvaluable], the call of a value reached by a
    variable path, is not among the sources.  The value model holds no
    function, so once the path resolves the call fails on the value's type. *)
Definition callEvaluable (fullname : string) (func : Evaluable) (args : list Evaluable)
  : Evaluable :=
  checked
    (fun c v h =>
       match func c v h with
       | ((f, None), h1) =>
           ((VNil, Some (Errorf "could not call %s type %T" [AS fullname; AV f])), h1)
       | ((_, Some err), h1) =>
           ((VNil, Some (Errorf "could not call %s: %w" [AS fullname; AE err])), h1)
       end).

(** The closure [alternative] of [parseIdent]: the path after the first
    identifier. *)
Fixpoint parseIdent_loop (n : nat) (p : Parser) (fullname : string)
    (keys : list Evaluable) : Parse Evaluable :=
  match n with
  | O => fun _ => OutOfFuel
  | S n' =>
      scan <- Scan X ;;
      if (scan =? rune_of ".")%Z then
        scan' <- Scan X ;;
        if (scan' =? scanner_Ident)%Z then
          token <- TokenText ;;
          parseIdent_loop n' p fullname (keys ++ [p_Const (VString token)])
        else failExpected "field" [scanner_Ident]
      else if (scan =? rune_of "(")%Z then
        args <- parseArguments p ;;
        retP (callEvaluable fullname (pVar p keys) args)
      else if (scan =? rune_of "[")%Z then
        key <- pParseExpression p ;;
        scan' <- Scan X ;;
        if (scan' =? rune_of "]")%Z then parseIdent_loop n' p fullname (keys ++ [key])
        else failExpected "array key" [rune_of "]"]
      else
        Camouflage "variable" [rune_of "."; rune_of "("; rune_of "["] ;;;
        retP (pVar p keys)
  end.

Definition parseIdent (p : Parser) : Parse (string * Parse Evaluable) :=
  token <- TokenText ;;
  retP (token,
        rounds (fun n => parseIdent_loop n p token [p_Const (VString token)])).

Definition inArray (a b : value) : Eff :=
  fun h =>
    match b with
    | VSlice p =>
        ((VBool (existsb (fun value => reflect_DeepEqual X h a value) (cell h p)), None), h)
    | _ =>
        ((VNil, Some (Errorf "expected type []interface{} for in operator but got %T"
                             [AV b])), h)
    end.

(** The evaluator [parseIf] returns for [e ? a : b]. *)
Definition ifEvaluable (e a b : Evaluable) : Evaluable :=
  fun c v =>
    try x := e c v in
    if nil_or_zero x then b c v else a c v.

Definition parseIf (p : Parser) (e : Evaluable) : Parse Evaluable :=
  a <- pParseExpression p ;;
  scan <- Scan X ;;
  b <- (if (scan =? rune_of ":")%Z then pParseExpression p
        else if (scan =? scanner_EOF)%Z then retP (p_Const VNil)
        else failExpected "<> ? <> : <>" [rune_of ":"; scanner_EOF]) ;;
  retP (ifEvaluable e a b).

(** [vs[i] = eval] *)
Definition store (p : addr) (i : nat) (x : value) (h : heap) : heap :=
  <[p := <[i := x]> (cell h p)]> h.

Fixpoint fillArray (evals : list Evaluable) (i : nat) (p : addr)
    (c : context) (v : value) (h : heap) : result * heap :=
  match evals with
  | [] => ((VSlice p, None), h)
  | e :: rest =>
      match e c v h with
      | ((x, None), h1) => fillArray rest (S i) p c v (store p i x h1)
      | ((_, Some err), h1) => ((VNil, Some err), h1)
      end
  end.

(** The evaluator [parseJSONArray] returns: a fresh array, filled in order. *)
Definition arrayEvaluable (evals : list Evaluable) : Evaluable :=
  fun c v h =>
    let '(p, h0) := alloc (repeat VNil (length evals)) h in
    fillArray evals 0 p c v h0.

Fixpoint parseJSONArray_loop (n : nat) (p : Parser) (evals : list Evaluable)
  : Parse Evaluable :=
  match n with
  | O => fun _ => OutOfFuel
  | S n' =>
      scan <- Scan X ;;
      if (scan =? rune_of ",")%Z then parseJSONArray_loop n' p evals
      else if (scan =? rune_of "]")%Z then retP (arrayEvaluable evals)
      else
        Camouflage "array" [rune_of ","; rune_of "]"] ;;;
        eval <- pParseExpression p ;;
        parseJSONArray_loop n' p (evals ++ [eval])
  end.

Definition parseJSONArray (p : Parser) : Parse Evaluable :=
  rounds (fun n => parseJSONArray_loop n p []).

Fixpoint fillObject (evals : list (Evaluable * Evaluable)) (vs : list (string * value))
    (c : context) (v : value) (h : heap) : result * heap :=
  match evals with
  | [] => ((VMap vs, None), h)
  | (key, val) :: rest =>
      match val c v h with
      | ((x, None), h1) =>
          match EvalString key c v h1 with
          | ((k, None), h2) => fillObject rest (map_set k x vs) c v h2
          | ((_, Some err), h2) => ((VNil, Some err), h2)
          end
      | ((_, Some err), h1) => ((VNil, Some err), h1)
      end
  end.

Definition objectEvaluable (evals : list (Evaluable * Evaluable)) : Evaluable :=
  fun c v h => fillObject evals [] c v h.

(** A token other than [:] after the key is consumed without complaint: the
    source tests an [err] that is nil at that point. *)
Fixpoint parseJSONObject_loop (n : nat) (p : Parser) (evals : list (Evaluable * Evaluable))
  : Parse Evaluable :=
  match n with
  | O => fun _ => OutOfFuel
  | S n' =>
      scan <- Scan X ;;
      if (scan =? rune_of ",")%Z then parseJSONObject_loop n' p evals
      else if (scan =? rune_of "}")%Z then retP (objectEvaluable evals)
      else
        Camouflage "object" [rune_of ","; rune_of "}"] ;;;
        key <- pParseExpression p ;;
        _ <- Scan X ;;
        val <- pParseExpression p ;;
        parseJSONObject_loop n' p (evals ++ [(key, val)])
  end.

Definition parseJSONObject (p : Parser) : Parse Evaluable :=
  rounds (fun n => parseJSONObject_loop n p []).

Definition startsWithOp (a b : string) : result := (VBool (strings_HasPrefix a b), None).
Definition containsOp (a b : string) : result := (VBool (strings_Contains a b), None).

(** ** Compiling and evaluating

    Modelled from the spec: the parser object and the entry points
    [compile]/[invoke] of section 6 are not among the sources.  A parser of
    depth [n] hands the extensions it calls a parser of depth [n - 1]. *)
Fixpoint newParser (l : Language) (lx : lexicon) (n : nat) : Parser :=
  match n with
  | O =>
      {| pFuel := O;
         pParseExpression := fun _ => OutOfFuel;
         pParseNextExpression := fun _ => OutOfFuel;
         pPrefix := fun k => option_map (fun _ _ => OutOfFuel) (prefixes l !! k);
         pVar := Var l |}
  | S n' =>
      let p := newParser l lx n' in
      {| pFuel := n;
         pParseExpression := ParseExpression l lx p;
         pParseNextExpression := ParseNextExpression l p;
         pPrefix := fun k => option_map (fun ex => ex p) (prefixes l !! k);
         pVar := Var l |}
  end.

Definition start (expression : string) : PState :=
  {| src := list_ascii_of_string expression; lastScan := 0%Z;
     tokenText := EmptyString; camouflage := None |}.

Definition depthOf (expression : string) : nat := 3 * String.length expression + 8.

(** [compile]: parse the whole text; a token left over is the parse error
    that was kept when it was pushed back. *)
Definition NewEvaluable (l : Language) (expression : string) : outcome Evaluable :=
  match parse l (newParser l (lexiconOf l) (depthOf expression)) (start expression) with
  | Done (eval, s) =>
      match camouflage s with
      | Some err => if (lastScan s =? scanner_EOF)%Z then Done eval else Failed err
      | None => Done eval
      end
  | Failed e => Failed e
  | OutOfFuel => OutOfFuel
  end.

(** [l.EvaluateWithContext(c, expression, parameter)]: compile, then invoke. *)
Definition EvaluateWithContext (l : Language) (c : context) (expression : string)
    (parameter : value) (h : heap) : outcome (result * heap) :=
  match NewEvaluable l expression with
  | Done eval => Done (eval c parameter h)
  | Failed e => Failed e
  | OutOfFuel => OutOfFuel
  end.

(** Modelled from the spec: [Function], the registration of a named
    function over already-evaluated arguments; the arguments are evaluated in
    order and the first error stops the call. *)
Fixpoint evalArgs (args : list Evaluable) (c : context) (v : value) (h : heap)
  : (list value * error) * heap :=
  match args with
  | [] => (([], None), h)
  | arg :: rest =>
      match arg c v h with
      | ((ai, None), h1) =>
          match evalArgs rest c v h1 with
          | ((a, None), h2) => ((ai :: a, None), h2)
          | ((_, Some err), h2) => (([], Some err), h2)
          end
      | ((_, Some err), h1) => (([], Some err), h1)
      end
  end.

Definition callFunc (f : list value -> Eff) (args : list Evaluable) : Evaluable :=
  checked
    (fun c v h =>
       match evalArgs args c v h with
       | ((a, None), h1) => f a h1
       | ((_, Some err), h1) => ((VNil, Some err), h1)
       end).

Definition Function (name : string) (f : list value -> Eff) : Language :=
  withPrefix (inr name)
    (fun p =>
       scan <- Scan X ;;
       args <- (if (scan =? rune_of "(")%Z then parseArguments p
                else Camouflage "function call" [rune_of "("] ;;; retP []) ;;
       retP (callFunc f args)).

(** ** [gval.go] *)

(** [matchesCondition] checks if value matches target based on the operator. *)
Definition matchesCondition (value target operator : string) : bool :=
  if String.eqb operator "equal" || String.eqb operator "eq" || String.eqb operator "=="
  then String.eqb value target
  else if String.eqb operator "notequal" || String.eqb operator "ne"
          || String.eqb operator "!="
  then negb (String.eqb value target)
  else if String.eqb operator "startswith" || String.eqb operator "sw"
  then strings_HasPrefix value target
  else if String.eqb operator "endswith" || String.eqb operator "ew"
  then strings_HasSuffix value target
  else if String.eqb operator "contains" || String.eqb operator "co"
  then strings_Contains value target
  else String.eqb value target.

(** The index of the first element a [for i, x := range] loop stops at. *)
Fixpoint find_index {A} (f : A -> bool) (l : list A) : option nat :=
  match l with
  | [] => None
  | x :: l' => if f x then Some O else option_map S (find_index f l')
  end.

(** [s[0], s[i] = s[i], s[0]] on the array at [p]. *)
Definition swap (p : addr) (i : nat) (h : heap) : heap :=
  match cell h p !! O, cell h p !! i with
  | Some x0, Some xi => <[p := <[i := x0]> (<[O := xi]> (cell h p))]> h
  | _, _ => h
  end.

(** [val.(string)] holds and the string matches. *)
Definition stringMatches (target operator : string) (val : value) : bool :=
  match val with
  | VString strVal => matchesCondition strVal target operator
  | _ => false
  end.

(** The test on one element of the left operand, by the operand's type. *)
Definition cfaElement (h : heap) (target operator : string) (elem : value) : bool :=
  match elem with
  | VSlice e => existsb (stringMatches target operator) (cell h e)
  | _ => false
  end.

Definition cfmElement (fieldName target operator : string) (item : value) : bool :=
  match item with
  | VMap m =>
      match map_get fieldName m with
      | Some val => stringMatches target operator val
      | None => false
      end
  | _ => false
  end.

(** The search loop shared by the arms of [cfaOperator] and [cfmOperator]:
    the first element passing [test] is swapped with the first element. *)
Definition swapFirstMatch (test : value -> bool) (p : addr) : Eff :=
  fun h =>
    match find_index test (cell h p) with
    | Some i => ((VBool true, None), swap p i h)
    | None => ((VBool false, None), h)
    end.

(** [cfaOperator] handles custom filtering for arrays/slices; the right
    operand is [[value, operator]]. *)
Definition cfaOperator (a b : value) : Eff :=
  fun h =>
    match b with
    | VSlice q =>
        match cell h q with
        | VString targetValue :: VString operator :: _ =>
            match a with
            | VSlices p => swapFirstMatch (cfaElement h targetValue operator) p h
            | VSlice p => swapFirstMatch (stringMatches targetValue operator) p h
            | _ => ((VBool false, None), h)
            end
        | _ => ((VBool false, None), h)
        end
    | _ => ((VBool false, None), h)
    end.

(** [cfmOperator] handles custom filtering for maps; the right operand is
    [[fieldname, operator, value]]. *)
Definition cfmOperator (a b : value) : Eff :=
  fun h =>
    match b with
    | VSlice q =>
        match cell h q with
        | VString fieldName :: VString operator :: VString targetValue :: _ =>
            match a with
            | VMaps p => swapFirstMatch (cfmElement fieldName targetValue operator) p h
            | VSlice p => swapFirstMatch (cfmElement fieldName targetValue operator) p h
            | _ => ((VBool false, None), h)
            end
        | _ => ((VBool false, None), h)
        end
    | _ => ((VBool false, None), h)
    end.

Definition ternaryOperator : Language := PostfixOperator "?" parseIf.

Definition ljson : Language :=
  NewLanguage [
    PrefixExtension (rune_of "[") parseJSONArray;
    PrefixExtension (rune_of "{") parseJSONObject ].

Definition parentheses : Language :=
  NewLanguage [ PrefixExtension (rune_of "(") parseParentheses ].

Definition ident : Language :=
  NewLanguage [ PrefixMetaPrefix scanner_Ident parseIdent ].

Definition negative (c : context) (v : value) : Eff :=
  match convertToFloat v with
  | Some i => ret (VFloat (- i))
  | None => raise (Errorf "unexpected %v(%T) expected number" [AV v; AV v])
  end.

Definition baseEqual (a b : value) : Eff :=
  fun h =>
    if is_nil a && is_nil b then ((VBool true, None), h)
    else if is_nil a || is_nil b then ((VBool false, None), h)
    else ((VBool (reflect_DeepEqual X h a b), None), h).

Definition baseNotEqual (a b : value) : Eff :=
  fun h =>
    if is_nil a && is_nil b then ((VBool false, None), h)
    else if is_nil a || is_nil b then ((VBool true, None), h)
    else ((VBool (negb (reflect_DeepEqual X h a b)), None), h).

Definition base : Language :=
  NewLanguage [
    PrefixExtension scanner_Int parseNumber;
    PrefixExtension scanner_Float parseNumber;
    PrefixOperator "-" negative;

    PrefixExtension scanner_String parseString;
    PrefixExtension scanner_Char parseString;
    PrefixExtension scanner_RawString parseString;

    Constant "true" (VBool true);
    Constant "false" (VBool false);
    Constant "nil" VNil;

    InfixOperator "==" baseEqual;
    InfixOperator "!=" baseNotEqual;
    parentheses;

    Precedence "??" 0;

    Precedence "||" 20;
    Precedence "&&" 21;

    Precedence "==" 40;
    Precedence "!=" 40;
    Precedence ">" 40;
    Precedence ">=" 40;
    Precedence "<" 40;
    Precedence "<=" 40;
    Precedence "=~" 40;
    Precedence "!~" 40;
    Precedence "in" 40;
    Precedence "sw" 40;
    Precedence "co" 40;
    Precedence "ew" 40;
    Precedence "mw" 40;
    Precedence "cfa" 40;
    Precedence "cfm" 40;

    Precedence "^" 60;
    Precedence "&" 60;
    Precedence "|" 60;

    Precedence "<<" 90;
    Precedence ">>" 90;

    Precedence "+" 120;
    Precedence "-" 120;

    Precedence "*" 150;
    Precedence "/" 150;
    Precedence "%" 150;

    Precedence "**" 200;

    ident ].

Definition number (f : float) : result := (VFloat f, None).
Definition boolean (b : bool) : result := (VBool b, None).

Definition arithmetic : Language :=
  NewLanguage [
    InfixNumberOperator "+" (fun a b => number (a + b));
    InfixNumberOperator "-" (fun a b => number (a - b));
    InfixNumberOperator "*" (fun a b => number (a * b));
    InfixNumberOperator "/" (fun a b => number (a / b));
    InfixNumberOperator "%" (fun a b => number (math_Mod X a b));
    InfixNumberOperator "**" (fun a b => number (math_Pow X a b));

    InfixNumberOperator ">" (fun a b => boolean (PrimFloat.ltb b a));
    InfixNumberOperator ">=" (fun a b => boolean (PrimFloat.leb b a));
    InfixNumberOperator "<" (fun a b => boolean (PrimFloat.ltb a b));
    InfixNumberOperator "<=" (fun a b => boolean (PrimFloat.leb a b));

    InfixNumberOperator "==" (fun a b => boolean (PrimFloat.eqb a b));
    InfixNumberOperator "!=" (fun a b => boolean (negb (PrimFloat.eqb a b)));

    base ].

(** [int64(a) << uint64(b)]: bits shifted out are lost. *)
Definition shiftLeft (a b : float) : Z :=
  if (toUint64 X b <? 64)%Z then int64_wrap (Z.shiftl (toInt64 X a) (toUint64 X b))
  else 0%Z.

Definition bitwiseNot (c : context) (v : value) : Eff :=
  match convertToFloat v with
  | Some i => ret (VFloat (Z2float (Z.lnot (toInt64 X i))))
  | None => raise (Errorf "unexpected %T expected number" [AV v])
  end.

Definition bitmask : Language :=
  NewLanguage [
    InfixNumberOperator "^"
      (fun a b => number (Z2float (Z.lxor (toInt64 X a) (toInt64 X b))));
    InfixNumberOperator "&"
      (fun a b => number (Z2float (Z.land (toInt64 X a) (toInt64 X b))));
    InfixNumberOperator "|"
      (fun a b => number (Z2float (Z.lor (toInt64 X a) (toInt64 X b))));
    InfixNumberOperator "<<" (fun a b => number (Z2float (shiftLeft a b)));
    InfixNumberOperator ">>"
      (fun a b => number (Z2float (Z.shiftr (toInt64 X a) (toUint64 X b))));

    PrefixOperator "~" bitwiseNot ].

Definition text : Language :=
  NewLanguage [
    InfixTextOperator "+" (fun a b => (VString (a ++ b), None));

    InfixTextOperator "<" (fun a b => boolean (string_ltb a b));
    InfixTextOperator "<=" (fun a b => boolean (string_leb a b));
    InfixTextOperator ">" (fun a b => boolean (string_ltb b a));
    InfixTextOperator ">=" (fun a b => boolean (string_leb b a));
    InfixTextOperator "sw" startsWithOp;
    InfixTextOperator "co" containsOp;
    InfixTextOperator "ew" (endsWithOp X);
    InfixTextOperator "mw" (matchOp X);

    InfixEvalOperator "=~" (regEx X);
    InfixEvalOperator "!~" (notRegEx X);
    base ].

Definition logicalNot (c : context) (v : value) : Eff :=
  match convertToBool v with
  | Some b => ret (VBool (negb b))
  | None => raise (Errorf "unexpected %T expected bool" [AV v])
  end.

(** [func(a interface{}) (interface{}, bool) { return false, a == false }]
    and its dual. *)
Definition andShortCircuit (a : value) : value * bool := (VBool false, is_bool false a).
Definition orShortCircuit (a : value) : value * bool := (VBool true, is_bool true a).

Definition propositionalLogic : Language :=
  NewLanguage [
    PrefixOperator "!" logicalNot;

    InfixShortCircuit "&&" andShortCircuit;
    InfixBoolOperator "&&" (fun a b => boolean (a && b));
    InfixShortCircuit "||" orShortCircuit;
    InfixBoolOperator "||" (fun a b => boolean (a || b));

    InfixBoolOperator "==" (fun a b => boolean (Bool.eqb a b));
    InfixBoolOperator "!=" (fun a b => boolean (negb (Bool.eqb a b)));

    base ].

(** The [date] function: one string argument, handed to the layouts. *)
Definition date (arguments : list value) : Eff :=
  match arguments with
  | [VString s] => pure (time_Parse X s)
  | _ => raise (Errorf "date() expects exactly one string argument" [])
  end.

Definition coalesceShort (a : value) : value * bool := (a, negb (nil_or_zero a)).
Definition coalesce (a b : value) : Eff := ret (if nil_or_zero a then b else a).

(** [full] is the union of Arithmetic, Bitmask, Text, PropositionalLogic,
    TernaryOperator, and Json, with [in], [??], [cfa], [cfm] and [date]. *)
Definition full : Language :=
  NewLanguage [
    arithmetic; bitmask; text; propositionalLogic; ljson;

    InfixOperator "in" inArray;

    InfixShortCircuit "??" coalesceShort;
    InfixOperator "??" coalesce;

    InfixOperator "cfa" cfaOperator;
    InfixOperator "cfm" cfmOperator;

    ternaryOperator;

    Function "date" date ].

Definition Full (extensions : list Language) : Language :=
  match extensions with
  | [] => full
  | _ => NewLanguage (full :: extensions)
  end.

(** [Evaluate] given parameter with given expression in gval full language. *)
Definition Evaluate (expression : string) (parameter : value) (opts : list Language)
    (h : heap) : outcome (result * heap) :=
  EvaluateWithContext (Full opts) context_Background expression parameter h.

(** ** [tolerant.go], second part: the tolerant dialect *)

(** The decision of the enhanced [==] on two evaluated operands. *)
Definition tolerantEqual (h : heap) (aVal bVal : value) : bool :=
  (* missing field (represented as false) equal to nil *)
  if (is_nil aVal && is_bool false bVal) || (is_bool false aVal && is_nil bVal) then true
  else if is_nil aVal && is_nil bVal then true
  else if is_bool false aVal && is_bool false bVal then true
  else if is_nil aVal || is_nil bVal || is_bool false aVal || is_bool false bVal then false
  else
    let deep :=
      match aVal, bVal with
      | VString aStr, VString bStr => String.eqb aStr bStr
      | VBool aBool, VBool bBool => Bool.eqb aBool bBool
      | _, _ => reflect_DeepEqual X h aVal bVal
      end in
    match convertToFloat aVal with
    | Some aFloat =>
        match convertToFloat bVal with
        | Some bFloat => PrimFloat.eqb aFloat bFloat
        | None => deep
        end
    | None => deep
    end.

(** The decision of the enhanced [!=]. *)
Definition tolerantNotEqual (h : heap) (aVal bVal : value) : bool :=
  if (is_nil aVal && is_bool false bVal) || (is_bool false aVal && is_nil bVal) then false
  else if is_nil aVal && is_nil bVal then false
  else if is_bool false aVal && is_bool false bVal then false
  else if (is_nil aVal && negb (is_nil bVal)) || (is_nil bVal && negb (is_nil aVal))
          || (is_bool false aVal && negb (is_bool false bVal))
          || (is_bool false bVal && negb (is_bool false aVal)) then true
  else
    let deep :=
      match aVal, bVal with
      | VString aStr, VString bStr => negb (String.eqb aStr bStr)
      | VBool aBool, VBool bBool => negb (Bool.eqb aBool bBool)
      | _, _ => negb (reflect_DeepEqual X h aVal bVal)
      end in
    match convertToFloat aVal with
    | Some aFloat =>
        match convertToFloat bVal with
        | Some bFloat => negb (PrimFloat.eqb aFloat bFloat)
        | None => deep
        end
    | None => deep
    end.

(** The operators over unevaluated operands: both sides are evaluated, left
    first, then compared. *)
Definition comparing (decide : heap -> value -> value -> bool) : infixBuilder :=
  fun a b =>
    inl (fun c v =>
           try aVal := a c v in
           try bVal := b c v in
           fun h => ((VBool (decide h aVal bVal), None), h)).

(** The enhanced order operators: false as soon as one side is false, the
    numeric order if both sides convert, else the order of the renderings. *)
Definition tolerantOrder (onFloats : float -> float -> bool)
    (onStrings : string -> string -> bool) (a b : value) : Eff :=
  fun h =>
    if is_bool false a || is_bool false b then ((VBool false, None), h)
    else
      let rendered := onStrings (Sprint X h a) (Sprint X h b) in
      match convertToFloat a with
      | Some aFloat =>
          match convertToFloat b with
          | Some bFloat => ((VBool (onFloats aFloat bFloat), None), h)
          | None => ((VBool rendered, None), h)
          end
      | None => ((VBool rendered, None), h)
      end.

Definition enhancedComparisons : Language :=
  NewLanguage [
    InfixEvalOperator "==" (comparing tolerantEqual);
    InfixEvalOperator "!=" (comparing tolerantNotEqual);

    InfixOperator ">" (tolerantOrder (fun a b => PrimFloat.ltb b a) (fun a b => string_ltb b a));
    InfixOperator ">=" (tolerantOrder (fun a b => PrimFloat.leb b a) (fun a b => string_leb b a));
    InfixOperator "<" (tolerantOrder PrimFloat.ltb string_ltb);
    InfixOperator "<=" (tolerantOrder PrimFloat.leb string_leb) ].

(** The [date] of the tolerant dialect returns its argument. *)
Definition tolerantDate (arguments : list value) : Eff :=
  match arguments with
  | [VString s] => ret (VString s)
  | _ => raise (Errorf "date() expects exactly one string argument" [])
  end.

(** [TolerantFull] creates a Full language that treats missing fields as
    false. *)
Definition TolerantFull : Language :=
  NewLanguage [
    arithmetic; bitmask; text; propositionalLogic; ljson;

    InfixOperator "in" inArray;
    InfixShortCircuit "??" coalesceShort;
    InfixOperator "??" coalesce;

    InfixOperator "cfa" cfaOperator;
    InfixOperator "cfm" cfmOperator;

    ternaryOperator;
    Function "date" tolerantDate;

    WithMissingFieldBehavior FalseOnMissingField;

    enhancedComparisons ].

End Engine.

(** ** An instance of the outside functions

    Exact integer powers for [math.Pow]; everything else answers with a
    marker, so that a computation that reached it would show. *)
Fixpoint pow_nat (x : float) (n : nat) : float :=
  match n with
  | O => 1
  | S n' => x * pow_nat x n'
  end.

Definition unmodelled : goerror := Errorf "outside the model" [].

Definition X0 : Externals :=
  {| math_Pow := fun x y =>
       match float_trunc y with
       | Some n => if float_is_integral y && (0 <=? n)%Z then pow_nat x (Z.to_nat n) else nan
       | None => nan
       end;
     math_Mod := fun _ _ => nan;
     ParseFloat_other := fun _ => (0%float, Some unmodelled);
     Unquote_other := fun _ => (EmptyString, Some unmodelled);
     fmt_float := fun _ => "?";
     fmt_composite := fun _ _ => "?";
     scan_other := fun _ => (scanner_EOF, EmptyString, []);
     int64_overflow := fun _ => (- 2 ^ 63)%Z;
     uint64_overflow := fun _ => (2 ^ 63)%Z;
     time_Parse := fun _ => (VNil, Some unmodelled);
     regEx := fun _ _ => inr unmodelled;
     notRegEx := fun _ _ => inr unmodelled;
     matchOp := fun _ _ => (VNil, Some unmodelled);
     endsWithOp := fun a b => (VBool (strings_HasSuffix a b), None);
     DeepEqual_composite := fun _ _ _ => false |}.


(** ** Notions used in the statements *)

Local Open Scope string_scope.

(** The array a slice value refers to. *)
Definition arrayOf (v : value) : option addr :=
  match v with
  | VSlice p => Some p
  | VSlices p => Some p
  | VMaps p => Some p
  | _ => None
  end.

(** The operand being filtered shares its array neither with the argument
    list nor with one of its own elements. *)
Definition apart (a b : value) (h : heap) : Prop :=
  forall p, arrayOf a = Some p -> arrayOf b <> Some p /\ VSlice p ∉ cell h p.

(** The one effect of a filter: the first element of the array at [p] and
    its element [i] change places. *)
Definition exchanged (p : addr) (i : nat) (h h' : heap) : Prop :=
  exists x0 xi, cell h p !! O = Some x0 /\ cell h p !! i = Some xi
                /\ h' = <[p := <[i := x0]> (<[O := xi]> (cell h p))]> h.

(** The first element of [l] that matches is the one at [i]. *)
Definition firstMatch (matches : value -> Prop) (l : list value) (i : nat) : Prop :=
  (exists x, l !! i = Some x /\ matches x)
  /\ forall j y, (j < i)%nat -> l !! j = Some y -> ~ matches y.

(** What [cfa] looks for in an element of its left operand [a]: in a
    [[]interface{}] a string that satisfies the condition, in a
    [[][]interface{}] a list that holds such a string. *)
Definition cfaMatches (h : heap) (a : value) (target operator : string) (x : value) : Prop :=
  match a with
  | VSlice _ => exists s, x = VString s /\ matchesCondition s target operator = true
  | VSlices _ =>
      exists e s, x = VSlice e /\ VString s ∈ cell h e
                  /\ matchesCondition s target operator = true
  | _ => False
  end.

(** What [cfm] looks for: a map whose field holds a string that satisfies the
    condition. *)
Definition cfmMatches (a : value) (fieldName target operator : string) (x : value) : Prop :=
  match a with
  | VSlice _ | VMaps _ =>
      exists m s, x = VMap m /\ map_get fieldName m = Some (VString s)
                  /\ matchesCondition s target operator = true
  | _ => False
  end.

(** The arguments [cfaOperator] and [cfmOperator] read off the right operand. *)
Definition cfaArguments (l : list value) : option (string * string) :=
  match l with
  | VString targetValue :: VString operator :: _ => Some (targetValue, operator)
  | _ => None
  end.

Definition cfmArguments (l : list value) : option (string * string * string) :=
  match l with
  | VString fieldName :: VString operator :: VString targetValue :: _ =>
      Some (fieldName, operator, targetValue)
  | _ => None
  end.

(** The double quote, to write expressions that contain string literals. *)
Definition quoted (s : string) : string :=
  String quote_char (s ++ String quote_char EmptyString).

Definition isString (v : option value) : bool :=
  match v with
  | Some (VString _) => true
  | _ => false
  end.

(** An evaluator that, on the heap [h] however extended, returns [x] and
    changes nothing. *)
Definition yields (e : Evaluable) (c : context) (v : value) (h : heap) (x : value) : Prop :=
  forall more, e c v (h ++ more)%list = ((x, None), (h ++ more)%list).

(** The operator names [matchesCondition] knows. *)
Definition knownOperators : list string :=
  ["equal"; "eq"; "=="; "notequal"; "ne"; "!="; "startswith"; "sw";
   "endswith"; "ew"; "contains"; "co"].

(** The scalars, and whether two values are of one dynamic type. *)
Definition scalar (v : value) : bool :=
  match v with
  | VNil | VBool _ | VFloat _ | VInt _ | VString _ => true
  | _ => false
  end.

Definition sameType (x y : value) : bool :=
  match x, y with
  | VNil, VNil | VBool _, VBool _ | VFloat _, VFloat _ | VInt _, VInt _
  | VString _, VString _ | VSlice _, VSlice _ | VSlices _, VSlices _
  | VMaps _, VMaps _ | VMap _, VMap _ | VMapAny _, VMapAny _ => true
  | _, _ => false
  end.

(** The pairs the tolerant dialect does not tell apart. *)
Definition nilOrFalse (x : value) : Prop := x = VNil \/ x = VBool false.

(** One step of the walk: what key [k] selects in [v], by the shape of [v]. *)
Definition selectStep (k : string) (v : value) (h : heap) : option value :=
  match v with
  | VMapAny o => mapany_get k o
  | VMap o => map_get k o
  | VSlice p => index_cell h p k
  | _ => reflectSelect k v h
  end.

(** The input of the examples: [{"a": {"b": [10, 20]}}]. *)
Definition nested : value := VMap [("a", VMap [("b", VSlice 0)])].
Definition nestedHeap : heap := [[VFloat 10; VFloat 20]].

(** The forms under which the full language has [&&], [||] and [??]. *)
Definition andForms : infixForms :=
  {| formNumber := None; formBoolean := Some (fun a b => boolean (a && b));
     formText := None; formArbitrary := None;
     formShortCircuit := Some andShortCircuit |}.

Definition orForms : infixForms :=
  {| formNumber := None; formBoolean := Some (fun a b => boolean (a || b));
     formText := None; formArbitrary := None;
     formShortCircuit := Some orShortCircuit |}.

Definition coalesceForms : infixForms :=
  {| formNumber := None; formBoolean := None; formText := None;
     formArbitrary := Some coalesce; formShortCircuit := Some coalesceShort |}.

(** An evaluator that answers the same whatever handle it is given. *)
Definition ignoresContext (e : Evaluable) : Prop :=
  forall c1 c2 v h, e c1 v h = e c2 v h.

(** What a parser returns when it returns: [returns Q m] holds if every
    result of [m] satisfies [Q]. *)
Definition returns {A} (Q : A -> Prop) (m : Parse A) : Prop :=
  forall s a s', m s = Done (a, s') -> Q a.

(** A property [P] of evaluators, carried through the parser: by the methods
    of a parser, by an extension, by an operator over unevaluated operands, by
    a postfix operator, by a binary operation, by a function. *)
Record ParserOK (P : Evaluable -> Prop) (p : Parser) : Prop := {
  ok_expression : returns P (pParseExpression p);
  ok_next : returns P (pParseNextExpression p);
  ok_prefix : forall k m, pPrefix p k = Some m -> returns P m;
  ok_var : forall path, Forall P path -> P (pVar p path)
}.

Definition extensionOK (P : Evaluable -> Prop) (ex : extension) : Prop :=
  forall p, ParserOK P p -> returns P (ex p).

Definition builderOK (P : Evaluable -> Prop) (b : infixBuilder) : Prop :=
  forall x y e, P x -> P y -> b x y = inl e -> P e.

Definition postfixOK (P : Evaluable -> Prop) (f : postfixFn) : Prop :=
  forall p e, ParserOK P p -> P e -> returns P (f p e).

Definition operationOK (P : Evaluable -> Prop) (f : value -> value -> Eff) : Prop :=
  forall a b, P (fun _ _ => f a b).

Definition functionOK (P : Evaluable -> Prop) (f : list value -> Eff) : Prop :=
  forall arguments, P (fun _ _ => f arguments).

Definition stageOK (P : Evaluable -> Prop) (st : stage) : Prop :=
  P (stEvaluable st) /\ forall b, stInfixBuilder st = Some b -> builderOK P b.

Definition operatorDefOK (P : Evaluable -> Prop) (d : operatorDef) : Prop :=
  match d with
  | DefInfix forms => forall f, formArbitrary forms = Some f -> operationOK P f
  | DefDirect b => builderOK P b
  | DefPostfix f => postfixOK P f
  end.

(** The entries of a Language carry [P]. *)
Record tablesOK (P : Evaluable -> Prop) (l : Language) : Prop := {
  t_prefixes : map_Forall (fun _ ex => extensionOK P ex) (prefixes l);
  t_operators : map_Forall (fun _ d => operatorDefOK P d) (operators l);
  t_selector : forall sel path, selector l = Some sel -> Forall P path -> P (sel path);
  t_init : forall i, init l = Some i -> extensionOK P i;
  t_def : forall d, def l = Some d -> extensionOK P d
}.

(** What a parser of the Language looks up carries [P]. *)
Record LanguageOK (X : Externals) (P : Evaluable -> Prop) (l : Language) : Prop := {
  ok_prefixes : forall k ex, prefixes l !! k = Some ex -> extensionOK P ex;
  ok_infix : forall op b prec, operatorOf X l op = Some (OpInfix b prec) -> builderOK P b;
  ok_postfix : forall op f prec, operatorOf X l op = Some (OpPostfix f prec) -> postfixOK P f;
  ok_selector : forall path, Forall P path -> P (Var X l path);
  ok_init : forall i, init l = Some i -> extensionOK P i;
  ok_def : forall d, def l = Some d -> extensionOK P d
}.

(** [P] is kept by the evaluators that the parser and the registry build. *)
Record closed (X : Externals) (P : Evaluable -> Prop) : Prop := {
  closed_Const : forall v, P (p_Const v);
  closed_checked : forall e, P e -> P (checked e);
  closed_if : forall e a b, P e -> P a -> P b -> P (ifEvaluable e a b);
  closed_array : forall evals, Forall P evals -> P (arrayEvaluable evals);
  closed_object :
    forall evals, Forall (fun kv => P (fst kv) /\ P (snd kv)) evals ->
                  P (objectEvaluable X evals);
  closed_call : forall fullname func args, P func -> P (callEvaluable fullname func args);
  closed_selector :
    forall behavior path, Forall P path -> P (selectorOf X behavior path);
  closed_prefix :
    forall e eval, P e -> P eval -> P (fun c v => try a := eval c v in e c a);
  closed_callFunc :
    forall f args, functionOK P f -> Forall P args -> P (callFunc f args);
  closed_infix :
    forall forms name, (forall f, formArbitrary forms = Some f -> operationOK P f) ->
                       builderOK P (infixBuilderOf X forms name);
  closed_comparing : forall decide, builderOK P (comparing decide)
}.

(** The operations of the full language that are registered by name. *)
Record operationsOK (X : Externals) (P : Evaluable -> Prop) : Prop := {
  op_negative : P (negative X);
  op_bitwiseNot : P (bitwiseNot X);
  op_logicalNot : P logicalNot;
  op_baseEqual : operationOK P (baseEqual X);
  op_baseNotEqual : operationOK P (baseNotEqual X);
  op_inArray : operationOK P (inArray X);
  op_coalesce : operationOK P coalesce;
  op_date : functionOK P (date X);
  op_regEx : builderOK P (regEx X);
  op_notRegEx : builderOK P (notRegEx X)
}.

(** The heap after a run holds every array of the heap before it, with the
    same elements in some order, and the arrays the run allocated. *)
Definition keeps (h h' : heap) : Prop :=
  length h <= length h' /\ forall p, p < length h -> cell h' p ≡ₚ cell h p.

(** The heap after a run is the heap before it, followed by the arrays the
    run allocated. *)
Definition extends (h h' : heap) : Prop := exists more, h' = (h ++ more)%list.

(** An evaluator whose every run relates the heap before to the heap after. *)
Definition respects (R : heap -> heap -> Prop) (e : Evaluable) : Prop :=
  forall c v h, R h (snd (e c v h)).

Definition framed : Evaluable -> Prop := respects keeps.
Definition unchanging : Evaluable -> Prop := respects extends.

(** The full language with other operations in the place of the two filters:
    [full] is [fullWith cfaOperator cfmOperator]. *)
Definition fullWith (X : Externals) (cfa cfm : value -> value -> Eff) : Language :=
  NewLanguage [
    arithmetic X; bitmask X; text X; propositionalLogic X; ljson X;
    InfixOperator "in" (inArray X);
    InfixShortCircuit "??" coalesceShort;
    InfixOperator "??" coalesce;
    InfixOperator "cfa" cfa;
    InfixOperator "cfm" cfm;
    ternaryOperator X;
    Function X "date" (date X) ].

(** ** Properties *)

(** *** What every compiled evaluator inherits

    A property of evaluators that the constructions of the parser keep holds
    of everything a Language compiles, provided the entries of the Language
    keep it too. *)

Lemma returns_retP {A} (Q : A -> Prop) (a : A) : Q a -> returns Q (retP a).
Proof. intros Ha s a' s' [= <- _]. exact Ha. Qed.

Lemma returns_bindP {A B} (Q : A -> Prop) (R : B -> Prop) (m : Parse A) (k : A -> Parse B) :
  returns Q m -> (forall a, Q a -> returns R (k a)) -> returns R (bindP m k).
Proof.
  intros Hm Hk s b s' Hrun. unfold bindP in Hrun.
  destruct (m s) as [[a s1]| |] eqn:Hms; try discriminate.
  eapply Hk; [|exact Hrun]. eapply Hm. exact Hms.
Qed.

Lemma returns_any {A} (m : Parse A) : returns (fun _ => True) m.
Proof. by intros ? ? ? _. Qed.

Lemma returns_failP {A} (Q : A -> Prop) (e : goerror) : returns Q (failP e).
Proof. by intros ? ? ?. Qed.

Lemma returns_failExpected {A} (Q : A -> Prop) (what : string) (expected : list rune) :
  returns Q (@failExpected A what expected).
Proof. by intros ? ? ?. Qed.

Lemma returns_rounds {A} (Q : A -> Prop) (loop : nat -> Parse A) :
  (forall n, returns Q (loop n)) -> returns Q (rounds loop).
Proof. intros H s a s'. unfold rounds. apply H. Qed.

Lemma returns_liftE {A} (Q : A -> Prop) (r : A + goerror) :
  (forall a, r = inl a -> Q a) -> returns Q (liftE r).
Proof.
  intros H s a s'. unfold liftE. destruct r; [|discriminate].
  intros [= <- _]. by apply H.
Qed.

Ltac skip_scan :=
  apply (returns_bindP (fun _ => True)); [apply returns_any|]; intros ? _.

Section Compiled.

Variable X : Externals.
Variable P : Evaluable -> Prop.

Lemma push_OK (stack : stageStack) :
  Forall (stageOK P) stack ->
  forall b stack', stageOK P b -> push stack b = inl stack' -> Forall (stageOK P) stack'.
Proof.
  induction 1 as [|a rest Ha Hrest IH]; intros b stack' Hb; simpl.
  - intros [= <-]. by constructor.
  - destruct (stPrecedence b <=? stPrecedence a)%Z.
    + destruct (stInfixBuilder a) as [builder|] eqn:Hbuilder; [|discriminate].
      destruct (builder (stEvaluable a) (stEvaluable b)) as [eval|] eqn:Hbuilt; [|discriminate].
      apply IH. split; simpl; [|apply Hb].
      eapply (proj2 Ha); [exact Hbuilder|apply Ha|apply Hb|exact Hbuilt].
    + intros [= <-]. constructor; [done|]. by constructor.
Qed.

Section Parsing.

Variable l : Language.
Hypothesis Hl : LanguageOK X P l.

Lemma parseOperator_OK (lx : lexicon) (p : Parser) :
  ParserOK P p ->
  forall n stack eval,
    Forall (stageOK P) stack -> P eval ->
    returns (fun found => stageOK P (fst found) /\ Forall (stageOK P) (snd found))
            (parseOperator X n l lx p stack eval).
Proof.
  intros Hp. induction n as [|n IH]; intros stack eval Hstack Heval; [by intros ? ? ?|].
  simpl. skip_scan. skip_scan.
  apply (returns_bindP (fun _ => True)); [apply returns_any|]. intros [[op' mustOp]|] _.
  - destruct (operatorOf X l op') as [[builder prec|f prec]|] eqn:Hop.
    + apply returns_retP. split; [|done]. split; [done|]. simpl. intros b [= <-].
      eapply ok_infix; [exact Hl|exact Hop].
    + apply (returns_bindP (Forall (stageOK P))).
      * apply returns_liftE. intros stack1. apply push_OK; [done|]. by split.
      * intros [|top rest] Hstack1; [apply returns_failP|].
        inversion Hstack1 as [|? ? Htop Hrest]; subst.
        apply (returns_bindP P).
        -- eapply ok_postfix; [exact Hl|exact Hop|exact Hp|apply Htop].
        -- intros eval' Heval'. by apply IH.
    + destruct mustOp; [apply returns_failP|]. skip_scan.
      apply returns_retP. split; [|done]. by split.
  - apply returns_retP. split; [|done]. by split.
Qed.

Lemma ParseExpression_loop_OK (lx : lexicon) (p : Parser) :
  ParserOK P p ->
  forall n stack,
    Forall (stageOK P) stack -> returns P (ParseExpression_loop X n l lx p stack).
Proof.
  intros Hp. induction n as [|n IH]; intros stack Hstack; [by intros ? ? ?|].
  simpl.
  apply (returns_bindP P); [apply Hp|]. intros eval Heval.
  apply (returns_bindP
           (fun found => stageOK P (fst found) /\ Forall (stageOK P) (snd found))).
  { apply returns_rounds. intros k. by apply parseOperator_OK. }
  intros [st stack0] [Hst Hstack0]. simpl in *.
  apply (returns_bindP (Forall (stageOK P))).
  { apply returns_liftE. intros stack1. by apply push_OK. }
  intros [|top rest] Hstack1; [apply returns_failP|].
  inversion Hstack1 as [|? ? Htop Hrest]; subst.
  destruct (stInfixBuilder top); [by apply IH|].
  apply returns_retP. apply Htop.
Qed.

Lemma ParseNextExpression_OK (p : Parser) :
  ParserOK P p -> returns P (ParseNextExpression X l p).
Proof.
  intros Hp. unfold ParseNextExpression.
  apply (returns_bindP (fun _ => True)); [apply returns_any|]. intros scan _.
  destruct (prefixes l !! inl scan) as [ex|] eqn:Hex.
  - eapply ok_prefixes; [exact Hl|exact Hex|exact Hp].
  - destruct (def l) as [d|] eqn:Hd; [|apply returns_failExpected].
    destruct (scan =? scanner_EOF)%Z; [apply returns_failExpected|].
    eapply ok_def; [exact Hl|exact Hd|exact Hp].
Qed.

Lemma newParser_OK (lx : lexicon) (n : nat) : ParserOK P (newParser X l lx n).
Proof.
  induction n as [|n IH]; simpl.
  - split; simpl; [by intros ? ? ?..| |apply Hl].
    intros k m Hm. destruct (prefixes l !! k); [|discriminate].
    injection Hm as <-. by intros ? ? ?.
  - split; simpl.
    + unfold ParseExpression. apply returns_rounds. intros k.
      by apply ParseExpression_loop_OK.
    + by apply ParseNextExpression_OK.
    + intros k m Hm. destruct (prefixes l !! k) as [ex|] eqn:Hex; [|discriminate].
      injection Hm as <-. eapply ok_prefixes; [exact Hl|exact Hex|exact IH].
    + apply Hl.
Qed.

(** Every evaluator the Language compiles has the property. *)
Lemma compiled_OK (expression : string) (e : Evaluable) :
  NewEvaluable X l expression = Done e -> P e.
Proof.
  unfold NewEvaluable.
  destruct (parse l _ _) as [[eval s]| |] eqn:Hparse; try discriminate.
  assert (Heval : P eval).
  { unfold parse in Hparse. destruct (init l) as [i|] eqn:Hi.
    - eapply ok_init; [exact Hl|exact Hi|apply newParser_OK|exact Hparse].
    - eapply ok_expression; [apply newParser_OK|exact Hparse]. }
  destruct (camouflage s); [destruct (lastScan s =? scanner_EOF)%Z|];
    intros [= <-] || discriminate; exact Heval.
Qed.

End Parsing.

(** The tables of a composed Language. *)
Lemma tablesOK_newLanguage : tablesOK P newLanguage.
Proof. split; simpl; try apply map_Forall_empty; discriminate. Qed.

Lemma operatorDefOK_merge (new old : operatorDef) :
  operatorDefOK P new -> operatorDefOK P old -> operatorDefOK P (mergeDef new old).
Proof.
  destruct new as [n| |], old as [o| |]; simpl; try done.
  intros Hn Ho f. destruct (formArbitrary n) as [g|] eqn:Hg; simpl.
  - intros [= <-]. by apply Hn.
  - apply Ho.
Qed.

Lemma tablesOK_merge (a b : Language) : tablesOK P a -> tablesOK P b -> tablesOK P (merge a b).
Proof.
  intros Ha Hb. split; simpl.
  - apply map_Forall_union_2; [apply Hb|apply Ha].
  - intros name d. rewrite lookup_union_with.
    destruct (operators b !! name) as [x|] eqn:Hx, (operators a !! name) as [y|] eqn:Hy;
      simpl; intros [= <-].
    + apply operatorDefOK_merge;
        [apply (t_operators _ _ Hb _ _ Hx)|apply (t_operators _ _ Ha _ _ Hy)].
    + apply (t_operators _ _ Hb _ _ Hx).
    + apply (t_operators _ _ Ha _ _ Hy).
  - intros sel path. destruct (selector b) as [sel'|] eqn:Hsel; simpl.
    + intros [= <-]. by apply (t_selector _ _ Hb).
    + apply (t_selector _ _ Ha).
  - intros i. destruct (init b) as [i'|] eqn:Hi; simpl.
    + intros [= <-]. by apply (t_init _ _ Hb).
    + apply (t_init _ _ Ha).
  - intros d. destruct (def b) as [d'|] eqn:Hd; simpl.
    + intros [= <-]. by apply (t_def _ _ Hb).
    + apply (t_def _ _ Ha).
Qed.

Lemma tablesOK_NewLanguage (bases : list Language) :
  Forall (tablesOK P) bases -> tablesOK P (NewLanguage bases).
Proof.
  unfold NewLanguage. generalize tablesOK_newLanguage. generalize newLanguage.
  intros acc Hacc Hbases. revert acc Hacc.
  induction Hbases as [|b bases Hb _ IH]; intros acc Hacc; simpl; [done|].
  apply IH. by apply tablesOK_merge.
Qed.

Lemma tablesOK_withPrefix (k : rune + string) (ex : extension) :
  extensionOK P ex -> tablesOK P (withPrefix k ex).
Proof.
  intros Hex. split; simpl; try apply map_Forall_empty; try discriminate.
  by apply map_Forall_singleton.
Qed.

Lemma tablesOK_withOperator (name : string) (d : operatorDef) :
  operatorDefOK P d -> tablesOK P (withOperator name d).
Proof.
  intros Hd. split; simpl; try apply map_Forall_empty; try discriminate.
  by apply map_Forall_singleton.
Qed.

Lemma tablesOK_InfixNumberOperator (name : string) (f : float -> float -> result) :
  tablesOK P (InfixNumberOperator name f).
Proof. apply tablesOK_withOperator. discriminate. Qed.

Lemma tablesOK_InfixBoolOperator (name : string) (f : bool -> bool -> result) :
  tablesOK P (InfixBoolOperator name f).
Proof. apply tablesOK_withOperator. discriminate. Qed.

Lemma tablesOK_InfixTextOperator (name : string) (f : string -> string -> result) :
  tablesOK P (InfixTextOperator name f).
Proof. apply tablesOK_withOperator. discriminate. Qed.

Lemma tablesOK_InfixShortCircuit (name : string) (f : value -> value * bool) :
  tablesOK P (InfixShortCircuit name f).
Proof. apply tablesOK_withOperator. discriminate. Qed.

Lemma tablesOK_Precedence (name : string) (prec : Z) : tablesOK P (Precedence name prec).
Proof. split; simpl; try apply map_Forall_empty; discriminate. Qed.

Lemma tablesOK_InfixOperator (name : string) (f : value -> value -> Eff) :
  operationOK P f -> tablesOK P (InfixOperator name f).
Proof. intros Hf. apply tablesOK_withOperator. by intros g [= <-]. Qed.

Lemma tablesOK_InfixEvalOperator (name : string) (b : infixBuilder) :
  builderOK P b -> tablesOK P (InfixEvalOperator name b).
Proof. intros Hb. by apply tablesOK_withOperator. Qed.

Lemma tablesOK_PostfixOperator (name : string) (f : postfixFn) :
  postfixOK P f -> tablesOK P (PostfixOperator name f).
Proof. intros Hf. by apply tablesOK_withOperator. Qed.

Lemma tablesOK_VariableSelector (sel : list Evaluable -> Evaluable) :
  (forall path, Forall P path -> P (sel path)) -> tablesOK P (VariableSelector sel).
Proof.
  intros Hsel. split; simpl; try apply map_Forall_empty; try discriminate.
  intros sel' path [= <-]. apply Hsel.
Qed.

Hypothesis HP : closed X P.

Lemma tablesOK_LanguageOK (l : Language) : tablesOK P l -> LanguageOK X P l.
Proof.
  intros Hl. split.
  - apply (t_prefixes _ _ Hl).
  - intros op b prec. unfold operatorOf.
    destruct (operators l !! op) as [[forms|builder|f]|] eqn:Hop; intros [= <- _].
    + apply (closed_infix _ _ HP). apply (t_operators _ _ Hl _ _ Hop).
    + apply (t_operators _ _ Hl _ _ Hop).
  - intros op f prec. unfold operatorOf.
    destruct (operators l !! op) as [[forms|builder|f']|] eqn:Hop; intros [= <- _].
    apply (t_operators _ _ Hl _ _ Hop).
  - intros path Hpath. unfold Var. destruct (selector l) as [sel|] eqn:Hsel.
    + by apply (t_selector _ _ Hl).
    + apply (closed_checked _ _ HP). by apply (closed_selector _ _ HP).
  - apply Hl.
  - apply Hl.
Qed.

(** The extensions of [parse.go]. *)
Lemma parseString_OK : extensionOK P (parseString X).
Proof.
  intros p Hp. unfold parseString. skip_scan.
  destruct (strconv_Unquote X _) as [s [err|]]; [apply returns_failP|].
  apply returns_retP. apply HP.
Qed.

Lemma parseNumber_OK : extensionOK P (parseNumber X).
Proof.
  intros p Hp. unfold parseNumber. skip_scan.
  destruct (strconv_ParseFloat X _) as [n [err|]]; [apply returns_failP|].
  apply returns_retP. apply HP.
Qed.

Lemma parseParentheses_OK : extensionOK P (parseParentheses X).
Proof.
  intros p Hp. unfold parseParentheses.
  apply (returns_bindP P); [apply Hp|]. intros eval Heval. skip_scan.
  destruct (_ =? _)%Z; [by apply returns_retP | apply returns_failExpected].
Qed.

Lemma parseArguments_OK (p : Parser) :
  ParserOK P p -> returns (Forall P) (parseArguments X p).
Proof.
  intros Hp. unfold parseArguments. skip_scan.
  destruct (_ =? _)%Z; [by apply returns_retP|]. skip_scan.
  apply returns_rounds. intros n. generalize (Forall_nil_2 P).
  generalize (@nil Evaluable). induction n as [|n IH]; intros args Hargs; [by intros ? ? ?|].
  simpl. apply (returns_bindP P); [apply Hp|]. intros arg Harg. skip_scan.
  assert (Hall : Forall P (args ++ [arg])) by (apply Forall_app; by repeat constructor).
  destruct (_ =? _)%Z; [by apply returns_retP|].
  destruct (_ =? _)%Z; [by apply IH | apply returns_failExpected].
Qed.

Lemma parseIdent_OK (p : Parser) :
  ParserOK P p -> returns (fun ca => returns P (snd ca)) (parseIdent X p).
Proof.
  intros Hp. unfold parseIdent.
  apply (returns_bindP (fun _ => True)); [apply returns_any|]. intros token _.
  apply returns_retP. simpl. apply returns_rounds. intros n.
  assert (Hkeys : Forall P [p_Const (VString token)]) by (repeat constructor; apply HP).
  revert Hkeys. generalize [p_Const (VString token)].
  induction n as [|n IH]; intros path Hpath; [by intros ? ? ?|].
  simpl. skip_scan.
  destruct (_ =? _)%Z.
  { skip_scan. destruct (_ =? _)%Z; [|apply returns_failExpected]. skip_scan.
    apply IH. apply Forall_app. split; [done|]. repeat constructor. apply HP. }
  destruct (_ =? _)%Z.
  { apply (returns_bindP (Forall P)); [by apply parseArguments_OK|]. intros args Hargs.
    apply returns_retP. apply (closed_call _ _ HP). by apply Hp. }
  destruct (_ =? _)%Z.
  { apply (returns_bindP P); [apply Hp|]. intros key Hkey. skip_scan.
    destruct (_ =? _)%Z; [|apply returns_failExpected].
    apply IH. apply Forall_app. by repeat constructor. }
  skip_scan. apply returns_retP. by apply Hp.
Qed.

Lemma parseIf_OK : postfixOK P (parseIf X).
Proof.
  intros p e Hp He. unfold parseIf.
  apply (returns_bindP P); [apply Hp|]. intros a Ha. skip_scan.
  apply (returns_bindP P).
  - destruct (_ =? _)%Z; [apply Hp|].
    destruct (_ =? _)%Z; [apply returns_retP; apply HP | apply returns_failExpected].
  - intros b Hb. apply returns_retP. by apply (closed_if _ _ HP).
Qed.

Lemma parseJSONArray_OK : extensionOK P (parseJSONArray X).
Proof.
  intros p Hp. unfold parseJSONArray. apply returns_rounds. intros n.
  generalize (Forall_nil_2 P). generalize (@nil Evaluable).
  induction n as [|n IH]; intros evals Hevals; [by intros ? ? ?|].
  simpl. skip_scan.
  destruct (_ =? _)%Z; [by apply IH|].
  destruct (_ =? _)%Z; [apply returns_retP; by apply (closed_array _ _ HP)|].
  skip_scan. apply (returns_bindP P); [apply Hp|]. intros eval Heval.
  apply IH. apply Forall_app. by repeat constructor.
Qed.

Lemma parseJSONObject_OK : extensionOK P (parseJSONObject X).
Proof.
  intros p Hp. unfold parseJSONObject. apply returns_rounds. intros n.
  generalize (Forall_nil_2 (fun kv : Evaluable * Evaluable => P (fst kv) /\ P (snd kv))).
  generalize (@nil (Evaluable * Evaluable)).
  induction n as [|n IH]; intros evals Hevals; [by intros ? ? ?|].
  simpl. skip_scan.
  destruct (_ =? _)%Z; [by apply IH|].
  destruct (_ =? _)%Z; [apply returns_retP; by apply (closed_object _ _ HP)|].
  skip_scan. apply (returns_bindP P); [apply Hp|]. intros key Hkey. skip_scan.
  apply (returns_bindP P); [apply Hp|]. intros val Hval.
  apply IH. apply Forall_app. by repeat constructor.
Qed.

(** The registrations that build an evaluator of their own. *)
Lemma tablesOK_Constant (name : string) (v : value) : tablesOK P (Constant name v).
Proof. apply tablesOK_withPrefix. intros p Hp. apply returns_retP. apply HP. Qed.

Lemma tablesOK_PrefixOperator (name : string) (e : context -> value -> Eff) :
  P e -> tablesOK P (PrefixOperator name e).
Proof.
  intros He. apply tablesOK_withPrefix. intros p Hp.
  apply (returns_bindP P); [apply Hp|]. intros eval Heval.
  apply returns_retP. apply (closed_checked _ _ HP). by apply (closed_prefix _ _ HP).
Qed.

Lemma tablesOK_PrefixMetaPrefix (r : rune) (ext : Parser -> Parse (string * Parse Evaluable)) :
  (forall p, ParserOK P p -> returns (fun ca => returns P (snd ca)) (ext p)) ->
  tablesOK P (PrefixMetaPrefix r ext).
Proof.
  intros Hext. apply tablesOK_withPrefix. intros p Hp.
  apply (returns_bindP (fun ca => returns P (snd ca))); [by apply Hext|].
  intros ca Hca. destruct (pPrefix p _) as [prefix|] eqn:Hprefix; [|exact Hca].
  eapply ok_prefix; [exact Hp|exact Hprefix].
Qed.

Lemma tablesOK_Function (name : string) (f : list value -> Eff) :
  functionOK P f -> tablesOK P (Function X name f).
Proof.
  intros Hf. apply tablesOK_withPrefix. intros p Hp. skip_scan.
  apply (returns_bindP (Forall P)).
  - destruct (_ =? _)%Z; [by apply parseArguments_OK|]. skip_scan. by apply returns_retP.
  - intros args Hargs. apply returns_retP. by apply (closed_callFunc _ _ HP).
Qed.

Lemma tablesOK_WithMissingFieldBehavior (behavior : MissingFieldBehavior) :
  tablesOK P (WithMissingFieldBehavior X behavior).
Proof. apply tablesOK_VariableSelector. apply (closed_selector _ _ HP). Qed.

(** The languages of [gval.go] and [tolerant.go]. *)
Hypothesis Hops : operationsOK X P.

Ltac tables :=
  repeat first
    [ apply Forall_nil_2
    | apply Forall_cons_2
    | apply tablesOK_NewLanguage
    | apply tablesOK_InfixNumberOperator
    | apply tablesOK_InfixBoolOperator
    | apply tablesOK_InfixTextOperator
    | apply tablesOK_InfixShortCircuit
    | apply tablesOK_Precedence
    | apply tablesOK_Constant
    | apply tablesOK_WithMissingFieldBehavior
    | apply tablesOK_PrefixOperator
    | apply tablesOK_PrefixMetaPrefix
    | apply tablesOK_InfixOperator
    | apply tablesOK_InfixEvalOperator
    | apply tablesOK_PostfixOperator
    | apply tablesOK_Function
    | apply tablesOK_withPrefix
    | apply parseNumber_OK | apply parseString_OK | apply parseParentheses_OK
    | apply parseIdent_OK | apply parseIf_OK | apply parseJSONArray_OK
    | apply parseJSONObject_OK
    | apply (closed_comparing _ _ HP)
    | apply Hops
    | assumption ].

Lemma tablesOK_base : tablesOK P (base X).
Proof. unfold base, parentheses, ident, PrefixExtension. tables. Qed.

Lemma tablesOK_ljson : tablesOK P (ljson X).
Proof. unfold ljson, PrefixExtension. tables. Qed.

Lemma tablesOK_arithmetic : tablesOK P (arithmetic X).
Proof. unfold arithmetic. pose proof tablesOK_base. tables. Qed.

Lemma tablesOK_bitmask : tablesOK P (bitmask X).
Proof. unfold bitmask. tables. Qed.

Lemma tablesOK_text : tablesOK P (text X).
Proof. unfold text. pose proof tablesOK_base. tables. Qed.

Lemma tablesOK_propositionalLogic : tablesOK P (propositionalLogic X).
Proof. unfold propositionalLogic. pose proof tablesOK_base. tables. Qed.

Lemma tablesOK_fullWith (cfa cfm : value -> value -> Eff) :
  operationOK P cfa -> operationOK P cfm -> tablesOK P (fullWith X cfa cfm).
Proof.
  intros Hcfa Hcfm. unfold fullWith, ternaryOperator.
  pose proof tablesOK_arithmetic. pose proof tablesOK_bitmask. pose proof tablesOK_text.
  pose proof tablesOK_propositionalLogic. pose proof tablesOK_ljson. tables.
Qed.

Lemma tablesOK_full :
  operationOK P cfaOperator -> operationOK P cfmOperator -> tablesOK P (full X).
Proof. apply tablesOK_fullWith. Qed.

End Compiled.

(** *** The filter operators *)

Lemma find_index_None {A} (f : A -> bool) (l : list A) :
  find_index f l = None <-> forall x, x ∈ l -> f x = false.
Proof.
  induction l as [|y l IH]; simpl.
  - split; [intros _ x Hx; inversion Hx | reflexivity].
  - destruct (f y) eqn:Hy.
    + split; [discriminate|]. intros H. rewrite (H y) in Hy; [discriminate | left].
    + destruct (find_index f l) eqn:Hfi; simpl.
      * split; [discriminate|]. intros H.
        destruct IH as [_ IH]. discriminate IH. intros x Hx. apply H. by right.
      * split; [|reflexivity]. intros _ x Hx. destruct IH as [IH _].
        apply elem_of_cons in Hx as [->|Hx]; [done|]. by apply IH.
Qed.

Lemma find_index_Some {A} (f : A -> bool) (l : list A) (i : nat) :
  find_index f l = Some i ->
  exists x, l !! i = Some x /\ f x = true
            /\ forall j y, (j < i)%nat -> l !! j = Some y -> f y = false.
Proof.
  revert i. induction l as [|y l IH]; simpl; intros i; [discriminate|].
  destruct (f y) eqn:Hy.
  - intros [= <-]. exists y. repeat split; [done|]. intros j z Hj; lia.
  - destruct (find_index f l) as [k|] eqn:Hfi; simpl; [|discriminate].
    intros [= <-]. destruct (IH k eq_refl) as (x & Hx & Hfx & Hbefore).
    exists x. repeat split; [done..|].
    intros [|j] z Hj Hz; simpl in Hz.
    + by injection Hz as <-.
    + eapply Hbefore; [|done]. lia.
Qed.

Lemma find_index_head {A} (f : A -> bool) (x : A) (l : list A) :
  f x = true -> find_index f (x :: l) = Some O.
Proof. intros H. simpl. by rewrite H. Qed.

Lemma swap_elements_perm {A} (l : list A) (j : nat) (x0 xi : A) :
  l !! j = Some xi -> xi :: <[j := x0]> l ≡ₚ x0 :: l.
Proof.
  revert j. induction l as [|y l IH]; intros [|j] H; simpl in *; try discriminate.
  - injection H as ->. apply perm_swap.
  - rewrite (perm_swap y xi). rewrite (IH j H). apply perm_swap.
Qed.

Lemma exchange_perm {A} (l : list A) (i : nat) (x0 xi : A) :
  l !! O = Some x0 -> l !! i = Some xi -> <[i := x0]> (<[O := xi]> l) ≡ₚ l.
Proof.
  destruct l as [|y l]; [discriminate|]. simpl. intros [= ->] Hi.
  destruct i as [|j]; simpl in *.
  - by injection Hi as ->.
  - by apply swap_elements_perm.
Qed.

Lemma cell_lookup (h : heap) (p : addr) (l : list value) :
  h !! p = Some l -> cell h p = l.
Proof. unfold cell. by intros ->. Qed.

Lemma cell_insert_eq (h : heap) (p : addr) (l : list value) :
  (p < length h)%nat -> cell (<[p := l]> h) p = l.
Proof. intros H. unfold cell. by rewrite list_lookup_insert_eq. Qed.

Lemma cell_insert_ne (h : heap) (p q : addr) (l : list value) :
  p <> q -> cell (<[p := l]> h) q = cell h q.
Proof. intros H. unfold cell. by rewrite list_lookup_insert_ne. Qed.

Lemma cell_nonempty_lookup (h : heap) (p : addr) (i : nat) (x : value) :
  cell h p !! i = Some x -> h !! p = Some (cell h p).
Proof.
  unfold cell. destruct (h !! p) as [l|]; simpl; [done|]. by rewrite lookup_nil.
Qed.

Lemma swap_length (p : addr) (i : nat) (h : heap) : length (swap p i h) = length h.
Proof.
  unfold swap. destruct (cell h p !! O), (cell h p !! i); try done.
  by rewrite length_insert.
Qed.

Lemma swap_other (p q : addr) (i : nat) (h : heap) :
  p <> q -> cell (swap p i h) q = cell h q.
Proof.
  intros H. unfold swap. destruct (cell h p !! O), (cell h p !! i); try done.
  by apply cell_insert_ne.
Qed.

Lemma swap_cell (p : addr) (i : nat) (h : heap) (x0 xi : value) :
  cell h p !! O = Some x0 -> cell h p !! i = Some xi ->
  cell (swap p i h) p = <[i := x0]> (<[O := xi]> (cell h p)).
Proof.
  intros H0 Hi. unfold swap. rewrite H0, Hi.
  apply cell_insert_eq. apply cell_nonempty_lookup in H0.
  by apply lookup_lt_Some in H0.
Qed.

Lemma swap_perm (p q : addr) (i : nat) (h : heap) : cell (swap p i h) q ≡ₚ cell h q.
Proof.
  destruct (decide (p = q)) as [<-|Hne]; [|by rewrite swap_other].
  destruct (cell h p !! O) as [x0|] eqn:H0, (cell h p !! i) as [xi|] eqn:Hi;
    try (unfold swap; rewrite H0, ?Hi; done).
  rewrite (swap_cell _ _ _ _ _ H0 Hi). by apply exchange_perm.
Qed.

Lemma swap_first (p : addr) (h : heap) : swap p O h = h.
Proof.
  unfold swap. destruct (cell h p !! O) as [x0|] eqn:H0; [|done].
  pose proof (cell_nonempty_lookup _ _ _ _ H0) as Hp.
  rewrite list_insert_insert_eq.
  rewrite (list_insert_id (cell h p) O x0 H0).
  by apply list_insert_id.
Qed.

Lemma swap_exchanged (p : addr) (i : nat) (h : heap) (x : value) :
  cell h p !! i = Some x -> exchanged p i h (swap p i h).
Proof.
  intros Hi. assert (is_Some (cell h p !! O)) as [x0 H0].
  { apply lookup_lt_is_Some. apply lookup_lt_Some in Hi. lia. }
  exists x0, x. repeat split; [done..|]. unfold swap. by rewrite H0, Hi.
Qed.

Lemma swap_head (p : addr) (i : nat) (h : heap) (x : value) :
  cell h p !! i = Some x -> cell (swap p i h) p !! O = Some x.
Proof.
  intros Hi. assert (is_Some (cell h p !! O)) as [x0 H0].
  { apply lookup_lt_is_Some. apply lookup_lt_Some in Hi. lia. }
  rewrite (swap_cell _ _ _ _ _ H0 Hi).
  destruct i as [|i].
  - rewrite list_lookup_insert_eq; [congruence|].
    rewrite length_insert. by apply lookup_lt_Some in H0.
  - rewrite list_lookup_insert_ne by done.
    rewrite list_lookup_insert_eq; [done|]. by apply lookup_lt_Some in H0.
Qed.

(** What one run of the search loop does. *)
Lemma swapFirstMatch_run (test : value -> bool) (p : addr) (h : heap) :
  (find_index test (cell h p) = None /\ swapFirstMatch test p h = ((VBool false, None), h))
  \/ (exists i x, find_index test (cell h p) = Some i /\ cell h p !! i = Some x
                  /\ test x = true
                  /\ swapFirstMatch test p h = ((VBool true, None), swap p i h)).
Proof.
  unfold swapFirstMatch. destruct (find_index test (cell h p)) as [i|] eqn:Hfi.
  - right. destruct (find_index_Some _ _ _ Hfi) as (x & Hx & Htx & _). by exists i, x.
  - by left.
Qed.

(** A second run, with a test that agrees with the first on the elements,
    returns the same and changes nothing. *)
Lemma swapFirstMatch_again (test test' : value -> bool) (p : addr) (h : heap) :
  (forall x, x ∈ cell h p -> test' x = test x) ->
  swapFirstMatch test' p (snd (swapFirstMatch test p h)) = swapFirstMatch test p h.
Proof.
  intros Hagree.
  destruct (swapFirstMatch_run test p h) as [[Hnone ->]|(i & x & Hfi & Hx & Htx & ->)]; simpl.
  - unfold swapFirstMatch. replace (find_index test' (cell h p)) with (@None nat); [done|].
    symmetry. apply find_index_None. intros y Hy. rewrite Hagree by done.
    by apply (proj1 (find_index_None test (cell h p))).
  - unfold swapFirstMatch.
    pose proof (swap_head p i h x Hx) as Hhead.
    destruct (cell (swap p i h) p) as [|y l] eqn:Hcell; [discriminate|].
    injection Hhead as ->.
    rewrite find_index_head.
    + by rewrite swap_first.
    + rewrite Hagree; [done|]. by eapply list_elem_of_lookup_2.
Qed.

Lemma swapFirstMatch_other (test : value -> bool) (p q : addr) (h : heap) :
  p <> q -> cell (snd (swapFirstMatch test p h)) q = cell h q.
Proof.
  intros Hne. unfold swapFirstMatch. destruct (find_index test (cell h p)); simpl; [|done].
  by apply swap_other.
Qed.

Lemma cfaOperator_shape (a b : value) (h : heap) :
  cfaOperator a b h = ((VBool false, None), h)
  \/ exists q t o p,
       b = VSlice q /\ cfaArguments (cell h q) = Some (t, o)
       /\ ((a = VSlice p /\ cfaOperator a b h = swapFirstMatch (stringMatches t o) p h)
           \/ (a = VSlices p /\ cfaOperator a b h = swapFirstMatch (cfaElement h t o) p h)).
Proof.
  destruct b as [| | | | |q| | | |]; try (by left).
  unfold cfaOperator.
  destruct (cell h q) as [|[| | | |t| | | | |] [|[| | | |o| | | | |] rest]] eqn:Hq;
    try (by left).
  destruct a as [| | | | |p|p| | |]; try (by left); right; exists q, t, o, p;
    (split; [done|]); (split; [by rewrite Hq|]); [left|right]; done.
Qed.

Lemma cfmOperator_shape (a b : value) (h : heap) :
  cfmOperator a b h = ((VBool false, None), h)
  \/ exists q f o t p,
       b = VSlice q /\ cfmArguments (cell h q) = Some (f, o, t)
       /\ (a = VSlice p \/ a = VMaps p)
       /\ cfmOperator a b h = swapFirstMatch (cfmElement f t o) p h.
Proof.
  destruct b as [| | | | |q| | | |]; try (by left).
  unfold cfmOperator.
  destruct (cell h q)
    as [|[| | | |f| | | | |] [|[| | | |o| | | | |] [|[| | | |t| | | | |] rest]]] eqn:Hq;
    try (by left).
  destruct a as [| | | | |p| |p| |]; try (by left); right; exists q, f, o, t, p;
    (split; [done|]); (split; [by rewrite Hq|]); (split; [|done]); [left|right]; done.
Qed.

Lemma cfaElement_other (h h' : heap) (t o : string) (p : addr) (elem : value) :
  (forall q, p <> q -> cell h' q = cell h q) -> elem <> VSlice p ->
  cfaElement h' t o elem = cfaElement h t o elem.
Proof.
  intros Hsame Hne. destruct elem as [| | | | |e| | | |]; try done. simpl.
  rewrite Hsame; [done|]. congruence.
Qed.

Lemma cfaOperator_again (a b : value) (h : heap) :
  apart a b h -> cfaOperator a b (snd (cfaOperator a b h)) = cfaOperator a b h.
Proof.
  intros Hapart.
  destruct (cfaOperator_shape a b h) as [Hf|(q & t & o & p & -> & Hargs & Ha)].
  { by rewrite Hf. }
  assert (Hpq : p <> q /\ VSlice p ∉ cell h p).
  { destruct (Hapart p) as [H1 H2]; [by destruct Ha as [[-> _]|[-> _]]|].
    split; [|done]. simpl in H1. congruence. }
  destruct Hpq as [Hpq Hself].
  destruct Ha as [[-> Hrun]|[-> Hrun]]; rewrite Hrun.
  - transitivity (swapFirstMatch (stringMatches t o) p
                    (snd (swapFirstMatch (stringMatches t o) p h))).
    + unfold cfaOperator. rewrite swapFirstMatch_other by done.
      destruct (cell h q) as [|[| | | |t'| | | | |] [|[| | | |o'| | | | |] rest]];
        try discriminate. by injection Hargs as -> ->.
    + by apply swapFirstMatch_again.
  - set (h1 := snd (swapFirstMatch (cfaElement h t o) p h)).
    transitivity (swapFirstMatch (cfaElement h1 t o) p h1).
    + unfold cfaOperator. unfold h1 at 1 2. rewrite swapFirstMatch_other by done.
      destruct (cell h q) as [|[| | | |t'| | | | |] [|[| | | |o'| | | | |] rest]];
        try discriminate. by injection Hargs as -> ->.
    + apply swapFirstMatch_again. intros x Hx. apply (cfaElement_other h h1 t o p).
      * intros e He. by apply swapFirstMatch_other.
      * intros ->. done.
Qed.

Lemma cfmOperator_again (a b : value) (h : heap) :
  apart a b h -> cfmOperator a b (snd (cfmOperator a b h)) = cfmOperator a b h.
Proof.
  intros Hapart.
  destruct (cfmOperator_shape a b h) as [Hf|(q & f & o & t & p & -> & Hargs & Ha & Hrun)].
  { by rewrite Hf. }
  assert (Hpq : p <> q).
  { destruct (Hapart p) as [H1 _]; [by destruct Ha as [->| ->]|].
    simpl in H1. congruence. }
  rewrite Hrun.
  transitivity (swapFirstMatch (cfmElement f t o) p
                  (snd (swapFirstMatch (cfmElement f t o) p h))).
  - unfold cfmOperator. rewrite swapFirstMatch_other by done.
    destruct (cell h q)
      as [|[| | | |f'| | | | |] [|[| | | |o'| | | | |] [|[| | | |t'| | | | |] rest]]];
      try discriminate. injection Hargs as -> -> ->. by destruct Ha as [->| ->].
  - by apply swapFirstMatch_again.
Qed.

Lemma swapFirstMatch_effect (test : value -> bool) (p : addr) (h : heap) :
  (swapFirstMatch test p h = ((VBool false, None), h))
  \/ (exists i, fst (swapFirstMatch test p h) = (VBool true, None)
                /\ exchanged p i h (snd (swapFirstMatch test p h))).
Proof.
  destruct (swapFirstMatch_run test p h) as [[_ ->]|(i & x & _ & Hx & _ & ->)]; [by left|].
  right. exists i. split; [done|]. by eapply swap_exchanged.
Qed.

Lemma exchanged_perm (p : addr) (i : nat) (h h' : heap) :
  exchanged p i h h' -> length h' = length h /\ forall q, cell h' q ≡ₚ cell h q.
Proof.
  intros (x0 & xi & H0 & Hi & ->). split; [by rewrite length_insert|].
  intros q. pose proof (swap_perm p q i h) as Hperm.
  unfold swap in Hperm. by rewrite H0, Hi in Hperm.
Qed.

(** What one run of a filter does. *)
Lemma filter_effect (f : value -> value -> Eff) (a b : value) (h : heap) :
  In f [cfaOperator; cfmOperator] ->
  (f a b h = ((VBool false, None), h))
  \/ (fst (f a b h) = (VBool true, None)
      /\ exists p i, arrayOf a = Some p /\ exchanged p i h (snd (f a b h))).
Proof.
  intros [<-|[<-|[]]].
  - destruct (cfaOperator_shape a b h) as [->|(q & t & o & p & _ & _ & Ha)]; [by left|].
    destruct Ha as [[-> ->]|[-> ->]].
    + destruct (swapFirstMatch_effect (stringMatches t o) p h) as [->|(i & Hr & Hx)];
        [by left | right; split; [done|]; by exists p, i].
    + destruct (swapFirstMatch_effect (cfaElement h t o) p h) as [->|(i & Hr & Hx)];
        [by left | right; split; [done|]; by exists p, i].
  - destruct (cfmOperator_shape a b h) as [->|(q & fd & o & t & p & _ & _ & Ha & ->)];
      [by left|].
    destruct (swapFirstMatch_effect (cfmElement fd t o) p h) as [->|(i & Hr & Hx)];
      [by left|]. right. split; [done|]. exists p, i. by destruct Ha as [->| ->].
Qed.

(** *** The frame of a run

    What the evaluators do to the heap, for a relation between the heap
    before and the heap after a run that allocation and the filling of a new
    array keep. *)

Section Frame.

Variable X : Externals.
Variable R : heap -> heap -> Prop.

Hypothesis R_refl : forall h, R h h.
Hypothesis R_trans : forall h1 h2 h3, R h1 h2 -> R h2 h3 -> R h1 h3.
Hypothesis R_alloc : forall l h, R h (snd (alloc l h)).
Hypothesis R_store :
  forall base p i x h, length base <= p -> R base h -> R base (store p i x h).

Lemma R_bindE (m : Eff) (k : value -> Eff) (h : heap) :
  R h (snd (m h)) -> (forall x h1, R h1 (snd (k x h1))) -> R h (snd (bindE m k h)).
Proof.
  intros Hm Hk. unfold bindE. destruct (m h) as [[x [err|]] h1]; [exact Hm|].
  eapply R_trans; [exact Hm|apply Hk].
Qed.

Lemma R_typed {A} (form : option (A -> A -> result)) (x y : option A)
    (otherwise : Eff) (h : heap) :
  R h (snd (otherwise h)) -> R h (snd (typed form x y otherwise h)).
Proof.
  intros Hother. unfold typed.
  destruct form; [|done]. destruct x; [|done]. destruct y; [|done]. apply R_refl.
Qed.

Lemma R_applyInfix (forms : infixForms) (name : string) (a b : value) (h : heap) :
  (forall f, formArbitrary forms = Some f -> operationOK (respects R) f) ->
  R h (snd (applyInfix X forms name a b h)).
Proof.
  intros Hl. unfold applyInfix.
  assert (Hgeneric :
            R h (snd (match formArbitrary forms with
                      | Some f => f a b
                      | None => raise (Errorf "invalid operation (%T) %s (%T)"
                                              [AV a; AS name; AV b])
                      end h))).
  { destruct (formArbitrary forms) as [f|] eqn:Hf; [|apply R_refl].
    apply (Hl f eq_refl a b context_Background VNil h). }
  do 3 apply R_typed. do 2 apply R_typed.
  destruct (formText forms); [|exact Hgeneric].
  destruct (formArbitrary forms); [exact Hgeneric|].
  destruct (_ || _); [exact Hgeneric | apply R_refl].
Qed.

Lemma R_fillArray (base : heap) (evals : list Evaluable) :
  Forall (respects R) evals ->
  forall i p c v h,
    length base <= p -> R base h -> R base (snd (fillArray evals i p c v h)).
Proof.
  induction 1 as [|e evals He _ IH]; intros i p c v h Hp Hh; simpl; [done|].
  pose proof (He c v h) as Hrun.
  destruct (e c v h) as [[x [err|]] h1]; simpl in *.
  - by eapply R_trans.
  - apply IH; [done|]. apply R_store; [done|]. by eapply R_trans.
Qed.

Lemma R_EvalString (e : Evaluable) (c : context) (v : value) (h : heap) :
  respects R e -> R h (snd (EvalString X e c v h)).
Proof.
  intros He. unfold EvalString. pose proof (He c v h) as Hrun.
  by destruct (e c v h) as [[x [err|]] h1].
Qed.

Lemma R_EvalStrings (path : list Evaluable) :
  Forall (respects R) path ->
  forall c v h, R h (snd (EvalStrings X path c v h)).
Proof.
  induction 1 as [|e path He _ IH]; intros c v h; simpl; [apply R_refl|].
  pose proof (R_EvalString e c v h He) as Hrun.
  destruct (EvalString X e c v h) as [[s [err|]] h1]; [done|].
  pose proof (IH c v h1) as Hrest.
  destruct (EvalStrings X path c v h1) as [[ss [err|]] h2]; by eapply R_trans.
Qed.

Lemma R_fillObject (evals : list (Evaluable * Evaluable)) :
  Forall (fun kv => respects R (fst kv) /\ respects R (snd kv)) evals ->
  forall vs c v h, R h (snd (fillObject X evals vs c v h)).
Proof.
  induction 1 as [|[key val] evals [Hkey Hval] _ IH]; intros vs c v h; simpl;
    [apply R_refl|]. simpl in *.
  pose proof (Hval c v h) as Hrun.
  destruct (val c v h) as [[x [err|]] h1]; [done|].
  pose proof (R_EvalString key c v h1 Hkey) as Hrun1.
  destruct (EvalString X key c v h1) as [[k [err|]] h2]; [by eapply R_trans|].
  eapply R_trans; [exact Hrun|]. eapply R_trans; [exact Hrun1|]. apply IH.
Qed.

Lemma R_evalArgs (args : list Evaluable) :
  Forall (respects R) args ->
  forall c v h, R h (snd (evalArgs args c v h)).
Proof.
  induction 1 as [|e args He _ IH]; intros c v h; simpl; [apply R_refl|].
  pose proof (He c v h) as Hrun.
  destruct (e c v h) as [[x [err|]] h1]; [done|].
  pose proof (IH c v h1) as Hrest.
  destruct (evalArgs args c v h1) as [[ss [err|]] h2]; by eapply R_trans.
Qed.

Lemma closed_respects : closed X (respects R).
Proof.
  assert (Hchecked : forall e, respects R e -> respects R (checked e)).
  { intros e He c v h. unfold checked. destruct (ctx_Err c); [apply R_refl | apply He]. }
  split.
  - intros x c v h. apply R_refl.
  - exact Hchecked.
  - intros e a b He Ha Hb c v h. unfold ifEvaluable. apply R_bindE; [apply He|].
    intros x h1. destruct (nil_or_zero x); [apply Hb | apply Ha].
  - intros evals Hevals c v h. unfold arrayEvaluable.
    pose proof (R_alloc (repeat VNil (length evals)) h) as Halloc.
    unfold alloc in *. simpl in *. by apply R_fillArray.
  - intros evals Hevals c v h. by apply R_fillObject.
  - intros fullname func args Hfunc. apply Hchecked. intros c v h.
    pose proof (Hfunc c v h) as Hrun. by destruct (func c v h) as [[f [err|]] h1].
  - intros behavior path Hpath c v h. unfold selectorOf.
    pose proof (R_EvalStrings path Hpath c v h) as Hrun.
    by destruct (EvalStrings X path c v h) as [[ks [err|]] h1].
  - intros e eval He Heval c v h. apply R_bindE; [apply Heval|].
    intros x h1. apply He.
  - intros f args Hf Hargs. apply Hchecked. intros c v h.
    pose proof (R_evalArgs args Hargs c v h) as Hrun.
    destruct (evalArgs args c v h) as [[vs [err|]] h1]; [done|].
    eapply R_trans; [exact Hrun|]. apply (Hf vs c v h1).
  - intros forms name Hl x y e Hx Hy [= <-]. apply Hchecked. intros c v h.
    assert (Heager : forall h0,
               R h0 (snd ((try av := x c v in try bv := y c v in
                           applyInfix X forms name av bv) h0))).
    { intros h0. apply R_bindE; [apply Hx|]. intros av h1.
      apply R_bindE; [apply Hy|]. intros bv h2. by apply R_applyInfix. }
    destruct (formShortCircuit forms) as [shortF|]; [|apply Heager].
    apply R_bindE; [apply Hx|]. intros av h1.
    destruct (shortF av) as [r [|]]; [apply R_refl | apply Heager].
  - intros decide x y e Hx Hy [= <-] c v h.
    apply R_bindE; [apply Hx|]. intros av h1.
    apply R_bindE; [apply Hy|]. intros bv h2. apply R_refl.
Qed.

Lemma operationsOK_respects :
  builderOK (respects R) (regEx X) -> builderOK (respects R) (notRegEx X) ->
  operationsOK X (respects R).
Proof.
  intros HregEx HnotRegEx. split; [| | | | | | | |exact HregEx|exact HnotRegEx].
  - intros c v h. unfold negative. destruct (convertToFloat X v); apply R_refl.
  - intros c v h. unfold bitwiseNot. destruct (convertToFloat X v); apply R_refl.
  - intros c v h. unfold logicalNot. destruct (convertToBool v); apply R_refl.
  - intros a b c v h. unfold baseEqual.
    destruct (_ && _); [apply R_refl|]. destruct (_ || _); apply R_refl.
  - intros a b c v h. unfold baseNotEqual.
    destruct (_ && _); [apply R_refl|]. destruct (_ || _); apply R_refl.
  - intros a b c v h. unfold inArray. destruct b; apply R_refl.
  - intros a b c v h. apply R_refl.
  - intros args c v h. unfold date.
    destruct args as [|[] [|]]; apply R_refl.
Qed.

(** With operations in the place of the filters that respect the relation,
    so does every evaluator the language compiles. *)
Lemma fullWith_respects (cfa cfm : value -> value -> Eff) (expression : string)
    (e : Evaluable) :
  builderOK (respects R) (regEx X) -> builderOK (respects R) (notRegEx X) ->
  operationOK (respects R) cfa -> operationOK (respects R) cfm ->
  NewEvaluable X (fullWith X cfa cfm) expression = Done e -> respects R e.
Proof.
  intros HregEx HnotRegEx Hcfa Hcfm.
  apply compiled_OK, tablesOK_LanguageOK; [apply closed_respects|].
  apply tablesOK_fullWith; [apply closed_respects|by apply operationsOK_respects|done..].
Qed.

End Frame.

Lemma keeps_refl (h : heap) : keeps h h.
Proof. by split. Qed.

Lemma keeps_trans (h1 h2 h3 : heap) : keeps h1 h2 -> keeps h2 h3 -> keeps h1 h3.
Proof.
  intros [Hlen12 H12] [Hlen23 H23]. split; [lia|].
  intros p Hp. rewrite H23 by lia. by apply H12.
Qed.

Lemma keeps_alloc (l : list value) (h : heap) : keeps h (snd (alloc l h)).
Proof.
  unfold alloc. simpl. split; [rewrite length_app; lia|].
  intros p Hp. unfold cell. by rewrite lookup_app_l.
Qed.

Lemma keeps_store (base : heap) (p : addr) (i : nat) (x : value) (h : heap) :
  length base <= p -> keeps base h -> keeps base (store p i x h).
Proof.
  intros Hp [Hlen Hcells]. unfold store. split; [by rewrite length_insert|].
  intros q Hq. rewrite cell_insert_ne by lia. by apply Hcells.
Qed.

Lemma keeps_exchanged (p : addr) (i : nat) (h h' : heap) : exchanged p i h h' -> keeps h h'.
Proof.
  intros Hx. destruct (exchanged_perm p i h h' Hx) as [Hlen Hperm].
  split; [lia|]. intros q _. apply Hperm.
Qed.

Lemma extends_refl (h : heap) : extends h h.
Proof. exists []. by rewrite app_nil_r. Qed.

Lemma extends_trans (h1 h2 h3 : heap) : extends h1 h2 -> extends h2 h3 -> extends h1 h3.
Proof. intros [m1 ->] [m2 ->]. exists (m1 ++ m2)%list. by rewrite app_assoc. Qed.

Lemma extends_alloc (l : list value) (h : heap) : extends h (snd (alloc l h)).
Proof. by exists [l]. Qed.

Lemma extends_store (base : heap) (p : addr) (i : nat) (x : value) (h : heap) :
  length base <= p -> extends base h -> extends base (store p i x h).
Proof.
  intros Hp [more ->]. unfold store.
  exists (<[p - length base := <[i := x]> (cell (base ++ more) p)]> more).
  by rewrite insert_app_r_alt.
Qed.

Lemma filters_framed (f : value -> value -> Eff) :
  In f [cfaOperator; cfmOperator] -> operationOK framed f.
Proof.
  intros Hf a b c v h. cbv beta.
  destruct (filter_effect f a b h Hf) as [->|[_ (p & i & _ & Hx)]];
    [apply keeps_refl | by eapply keeps_exchanged].
Qed.

(** Every evaluator the full language compiles keeps the arrays of the heap:
    their elements may change places, nothing else happens to them. *)
Lemma full_framed (X : Externals) (expression : string) (e : Evaluable) :
  builderOK framed (regEx X) -> builderOK framed (notRegEx X) ->
  NewEvaluable X (full X) expression = Done e -> framed e.
Proof.
  intros HregEx HnotRegEx.
  apply (fullWith_respects X keeps keeps_refl keeps_trans keeps_alloc keeps_store
           cfaOperator cfmOperator); [done|done|apply filters_framed..]; simpl; auto.
Qed.

(** Without the filters every evaluator leaves the heap it was given as it
    is, and adds the arrays it allocates. *)
Lemma fullWith_unchanging (X : Externals) (cfa cfm : value -> value -> Eff)
    (expression : string) (e : Evaluable) :
  builderOK unchanging (regEx X) -> builderOK unchanging (notRegEx X) ->
  operationOK unchanging cfa -> operationOK unchanging cfm ->
  NewEvaluable X (fullWith X cfa cfm) expression = Done e -> unchanging e.
Proof.
  apply (fullWith_respects X extends extends_refl extends_trans extends_alloc extends_store).
Qed.

Lemma stringMatches_true (target operator : string) (x : value) :
  stringMatches target operator x = true
  <-> exists s, x = VString s /\ matchesCondition s target operator = true.
Proof.
  destruct x; simpl; try (split; [discriminate|by intros (s0 & [=] & _)]).
  split; [by exists s|]. by intros (s0 & [= <-] & Hs).
Qed.

Lemma cfaElement_true (h : heap) (target operator : string) (x : value) :
  cfaElement h target operator x = true
  <-> exists e s, x = VSlice e /\ VString s ∈ cell h e
                  /\ matchesCondition s target operator = true.
Proof.
  destruct x as [| | | | |e| | | |]; simpl;
    try (split; [discriminate|by intros (e0 & s0 & [=] & _)]).
  rewrite existsb_exists. split.
  - intros (y & Hy & Hmatch). apply stringMatches_true in Hmatch as (s & -> & Hs).
    exists e, s. split; [done|]. split; [by apply list_elem_of_In|done].
  - intros (e0 & s & [= <-] & Hin & Hs). exists (VString s).
    split; [by apply list_elem_of_In|]. apply stringMatches_true. by exists s.
Qed.

Lemma cfmElement_true (fieldName target operator : string) (x : value) :
  cfmElement fieldName target operator x = true
  <-> exists m s, x = VMap m /\ map_get fieldName m = Some (VString s)
                  /\ matchesCondition s target operator = true.
Proof.
  destruct x as [| | | | | | | |m|]; simpl;
    try (split; [discriminate|by intros (m0 & s0 & [=] & _)]).
  destruct (map_get fieldName m) as [val|] eqn:Hval.
  - rewrite stringMatches_true. split.
    + intros (s & -> & Hs). by exists m, s.
    + intros (m0 & s & [= <-] & Hget & Hs). exists s. split; [congruence|done].
  - split; [discriminate|]. intros (m0 & s & [= <-] & Hget & _). congruence.
Qed.

(** The search loop: no element passes the test, the answer is false and
    nothing changes; or the first element that passes it changes places with
    the first element, and the answer is true. *)
Lemma swapFirstMatch_first (test : value -> bool) (matches : value -> Prop) (p : addr)
    (h : heap) :
  (forall x, test x = true <-> matches x) ->
  (swapFirstMatch test p h = ((VBool false, None), h)
   /\ forall x, x ∈ cell h p -> ~ matches x)
  \/ (exists i, fst (swapFirstMatch test p h) = (VBool true, None)
                /\ firstMatch matches (cell h p) i
                /\ exchanged p i h (snd (swapFirstMatch test p h))).
Proof.
  intros Htest.
  destruct (swapFirstMatch_run test p h) as [[Hnone ->]|(i & x & Hfi & Hx & Htx & ->)].
  - left. split; [done|]. intros x Hx Hmatch. apply Htest in Hmatch.
    rewrite (proj1 (find_index_None test (cell h p)) Hnone x Hx) in Hmatch. discriminate.
  - right. exists i. split; [done|]. split; [|by eapply swap_exchanged].
    split; [exists x; split; [done|by apply Htest]|].
    intros j y Hj Hy Hmatch. apply Htest in Hmatch.
    destruct (find_index_Some test (cell h p) i Hfi) as (x' & _ & _ & Hbefore).
    rewrite (Hbefore j y Hj Hy) in Hmatch. discriminate.
Qed.

(** What one run of [cfa] does, and of [cfm]. *)
Lemma cfaOperator_first (a b : value) (h : heap) :
  cfaOperator a b h = ((VBool false, None), h)
  \/ (fst (cfaOperator a b h) = (VBool true, None)
      /\ exists p q target operator i,
           arrayOf a = Some p /\ b = VSlice q
           /\ cfaArguments (cell h q) = Some (target, operator)
           /\ firstMatch (cfaMatches h a target operator) (cell h p) i
           /\ exchanged p i h (snd (cfaOperator a b h))).
Proof.
  destruct (cfaOperator_shape a b h) as [->|(q & t & o & p & -> & Hargs & Ha)]; [by left|].
  destruct Ha as [[-> ->]|[-> ->]].
  - destruct (swapFirstMatch_first (stringMatches t o) (cfaMatches h (VSlice p) t o) p h)
      as [[-> _]|(i & Hr & Hfirst & Hx)]; [intros x; apply stringMatches_true|by left|].
    right. split; [done|]. by exists p, q, t, o, i.
  - destruct (swapFirstMatch_first (cfaElement h t o) (cfaMatches h (VSlices p) t o) p h)
      as [[-> _]|(i & Hr & Hfirst & Hx)]; [intros x; apply cfaElement_true|by left|].
    right. split; [done|]. by exists p, q, t, o, i.
Qed.

Lemma cfmOperator_first (a b : value) (h : heap) :
  cfmOperator a b h = ((VBool false, None), h)
  \/ (fst (cfmOperator a b h) = (VBool true, None)
      /\ exists p q fieldName operator target i,
           arrayOf a = Some p /\ b = VSlice q
           /\ cfmArguments (cell h q) = Some (fieldName, operator, target)
           /\ firstMatch (cfmMatches a fieldName target operator) (cell h p) i
           /\ exchanged p i h (snd (cfmOperator a b h))).
Proof.
  destruct (cfmOperator_shape a b h) as [->|(q & fd & o & t & p & -> & Hargs & Ha & ->)];
    [by left|].
  destruct (swapFirstMatch_first (cfmElement fd t o) (cfmMatches a fd t o) p h)
    as [[-> _]|(i & Hr & Hfirst & Hx)].
  - intros x. rewrite cfmElement_true. by destruct Ha as [->| ->].
  - by left.
  - right. split; [done|]. exists p, q, fd, o, t, i. by destruct Ha as [->| ->].
Qed.




Lemma cfaArguments_None (l : list value) :
  cfaArguments l = None
  <-> (length l < 2)%nat \/ isString (l !! 0%nat) = false \/ isString (l !! 1%nat) = false.
Proof.
  destruct l as [|x [|y l]]; simpl.
  - split; [left; lia | reflexivity].
  - destruct x; (split; [left; lia | reflexivity]).
  - destruct x, y; simpl; split; intros H;
      try reflexivity; try discriminate; try (right; by (left + right));
      destruct H as [Hl|[Hx|Hy]]; try discriminate; lia.
Qed.

Lemma cfmArguments_None (l : list value) :
  cfmArguments l = None
  <-> (length l < 3)%nat \/ isString (l !! 0%nat) = false \/ isString (l !! 1%nat) = false
      \/ isString (l !! 2%nat) = false.
Proof.
  destruct l as [|x [|y [|z l]]]; simpl.
  - split; [left; lia | reflexivity].
  - destruct x; (split; [left; lia | reflexivity]).
  - destruct x, y; (split; [left; lia | reflexivity]).
  - destruct x, y, z; simpl; split; intros H;
      try reflexivity; try discriminate;
      try (right; by (left + (right; left) + (right; right)));
      destruct H as [Hl|[Hx|[Hy|Hz]]]; try discriminate; lia.
Qed.

Lemma cfaOperator_arguments (a : value) (q : addr) (h : heap) :
  cfaArguments (cell h q) = None -> cfaOperator a (VSlice q) h = ((VBool false, None), h).
Proof.
  unfold cfaOperator.
  by destruct (cell h q) as [|[| | | |t| | | | |] [|[| | | |o| | | | |] rest]].
Qed.

Lemma cfmOperator_arguments (a : value) (q : addr) (h : heap) :
  cfmArguments (cell h q) = None -> cfmOperator a (VSlice q) h = ((VBool false, None), h).
Proof.
  unfold cfmOperator.
  by destruct (cell h q)
    as [|[| | | |f| | | | |] [|[| | | |o| | | | |] [|[| | | |t| | | | |] rest]]].
Qed.

Lemma swapFirstMatch_no_match (test : value -> bool) (p : addr) (h : heap) :
  (forall x, x ∈ cell h p -> test x = false) ->
  swapFirstMatch test p h = ((VBool false, None), h).
Proof.
  intros H. unfold swapFirstMatch.
  by rewrite (proj2 (find_index_None test (cell h p)) H).
Qed.

Lemma matchesCondition_default (value target operator : string) :
  ~ In operator knownOperators ->
  matchesCondition value target operator = String.eqb value target.
Proof.
  intros Hnot. unfold matchesCondition.
  repeat match goal with
         | |- context [String.eqb operator ?name] =>
             destruct (String.eqb_spec operator name) as [->|_];
             [exfalso; apply Hnot; unfold knownOperators; simpl; tauto|]
         end.
  reflexivity.
Qed.

(** C10.  [cfa] and [cfm] never return an error.  They answer [(false, nil)],
    with the heap untouched, when the right operand is not a [[]interface{}],
    when it is shorter than the arguments they read (two for [cfa], three for
    [cfm]) or one of those is not a string, when the left operand has none of
    the supported slice types, and when no element of it matches; and
    [matchesCondition] compares for equality on every operator name it does
    not know. *)
Theorem filters_never_fail (a b : value) (h : heap) :
  (snd (fst (cfaOperator a b h)) = None /\ snd (fst (cfmOperator a b h)) = None)
  /\ ((forall q, b <> VSlice q) ->
      cfaOperator a b h = ((VBool false, None), h)
      /\ cfmOperator a b h = ((VBool false, None), h))
  /\ (forall q, b = VSlice q ->
        let l := cell h q in
        ((length l < 2)%nat \/ isString (l !! 0%nat) = false \/ isString (l !! 1%nat) = false ->
         cfaOperator a b h = ((VBool false, None), h))
        /\ ((length l < 3)%nat \/ isString (l !! 0%nat) = false
            \/ isString (l !! 1%nat) = false \/ isString (l !! 2%nat) = false ->
            cfmOperator a b h = ((VBool false, None), h)))
  /\ ((forall p, a <> VSlice p /\ a <> VSlices p) ->
      cfaOperator a b h = ((VBool false, None), h))
  /\ ((forall p, a <> VSlice p /\ a <> VMaps p) ->
      cfmOperator a b h = ((VBool false, None), h))
  /\ (forall p q target operator,
        b = VSlice q -> cfaArguments (cell h q) = Some (target, operator) ->
        (a = VSlice p /\ (forall x, x ∈ cell h p -> stringMatches target operator x = false))
        \/ (a = VSlices p /\ (forall x, x ∈ cell h p -> cfaElement h target operator x = false)) ->
        cfaOperator a b h = ((VBool false, None), h))
  /\ (forall p q fieldName operator target,
        b = VSlice q -> cfmArguments (cell h q) = Some (fieldName, operator, target) ->
        (a = VSlice p \/ a = VMaps p) ->
        (forall x, x ∈ cell h p -> cfmElement fieldName target operator x = false) ->
        cfmOperator a b h = ((VBool false, None), h))
  /\ (forall value target operator,
        ~ In operator knownOperators ->
        matchesCondition value target operator = String.eqb value target).
Proof.
  split; [|split; [|split; [|split; [|split; [|split; [|split]]]]]].
  - split.
    + destruct (filter_effect cfaOperator a b h) as [->|[-> _]]; [by left|done..].
    + destruct (filter_effect cfmOperator a b h) as [->|[-> _]]; [right; by left|done..].
  - intros Hb. destruct b; try done. by destruct (Hb p).
  - intros q -> l. split; intros Hl.
    + apply cfaOperator_arguments. by apply cfaArguments_None.
    + apply cfmOperator_arguments. by apply cfmArguments_None.
  - intros Ha.
    destruct (cfaOperator_shape a b h) as [Hf|(q & t & o & p & _ & _ & Hp)]; [done|].
    destruct (Ha p) as [H1 H2]. by destruct Hp as [[-> _]|[-> _]].
  - intros Ha.
    destruct (cfmOperator_shape a b h) as [Hf|(q & f & o & t & p & _ & _ & Hp & _)]; [done|].
    destruct (Ha p) as [H1 H2]. by destruct Hp as [->| ->].
  - intros p q target operator -> Hargs Hnone. unfold cfaOperator.
    destruct (cell h q) as [|[| | | |t'| | | | |] [|[| | | |o'| | | | |] rest]];
      try discriminate. injection Hargs as -> ->.
    destruct Hnone as [[-> Hnone]|[-> Hnone]]; by apply swapFirstMatch_no_match.
  - intros p q fieldName operator target -> Hargs Ha Hnone. unfold cfmOperator.
    destruct (cell h q)
      as [|[| | | |f'| | | | |] [|[| | | |o'| | | | |] [|[| | | |t'| | | | |] rest]]];
      try discriminate. injection Hargs as -> -> ->.
    destruct Ha as [->| ->]; by apply swapFirstMatch_no_match.
  - apply matchesCondition_default.
Qed.

(** *** Membership *)


(** *** The tolerant comparisons *)

Lemma TolerantFull_comparisons (X : Externals) :
  operatorOf X (TolerantFull X) "==" = Some (OpInfix (comparing (tolerantEqual X)) 40)
  /\ operatorOf X (TolerantFull X) "!=" = Some (OpInfix (comparing (tolerantNotEqual X)) 40).
Proof.
  unfold TolerantFull, enhancedComparisons.
  generalize (comparing (tolerantEqual X)), (comparing (tolerantNotEqual X)).
  intros eqB neB. split; vm_compute; reflexivity.
Qed.

Lemma comparing_run (decide : heap -> value -> value -> bool) (a b : Evaluable)
    (c : context) (v x y : value) (h h1 h2 : heap) :
  a c v h = ((x, None), h1) -> b c v h1 = ((y, None), h2) ->
  exists eval, comparing decide a b = inl eval
               /\ eval c v h = ((VBool (decide h2 x y), None), h2).
Proof.
  intros Ha Hb. eexists. split; [reflexivity|].
  unfold bindE. by rewrite Ha, Hb.
Qed.

(** C9.  In [TolerantFull] the names [==] and [!=] resolve to the enhanced
    comparisons.  Whenever each operand evaluates to nil or to the boolean
    false (nil and false, false and nil, nil and nil, false and false), [==]
    answers true and [!=] answers false: a missing field, which the dialect
    reads as false, cannot be told from nil, and neither can a field that
    holds false. *)
Theorem tolerant_equality (X : Externals) (a b : Evaluable) (c : context) (v x y : value)
    (h h1 h2 : heap) :
  a c v h = ((x, None), h1) -> b c v h1 = ((y, None), h2) ->
  nilOrFalse x -> nilOrFalse y ->
  exists equal notEqual isEqual isNotEqual,
    operatorOf X (TolerantFull X) "==" = Some (OpInfix equal 40)
    /\ operatorOf X (TolerantFull X) "!=" = Some (OpInfix notEqual 40)
    /\ equal a b = inl isEqual /\ notEqual a b = inl isNotEqual
    /\ isEqual c v h = ((VBool true, None), h2)
    /\ isNotEqual c v h = ((VBool false, None), h2).
Proof.
  intros Ha Hb Hx Hy.
  destruct (TolerantFull_comparisons X) as [Heq Hne].
  destruct (comparing_run (tolerantEqual X) a b c v x y h h1 h2 Ha Hb) as (e1 & He1 & Hr1).
  destruct (comparing_run (tolerantNotEqual X) a b c v x y h h1 h2 Ha Hb) as (e2 & He2 & Hr2).
  exists (comparing (tolerantEqual X)), (comparing (tolerantNotEqual X)), e1, e2.
  repeat split; [done..| |].
  - rewrite Hr1. by destruct Hx as [-> | ->], Hy as [-> | ->].
  - rewrite Hr2. by destruct Hx as [-> | ->], Hy as [-> | ->].
Qed.

(** An instance, end to end: in [TolerantFull] a field that is absent and a
    field that holds false both equal nil. *)
Lemma tolerant_equality_witness :
  (exists equal notEqual isEqual isNotEqual,
      operatorOf X0 (TolerantFull X0) "==" = Some (OpInfix equal 40)
      /\ operatorOf X0 (TolerantFull X0) "!=" = Some (OpInfix notEqual 40)
      /\ equal (p_Const VNil) (p_Const (VBool false)) = inl isEqual
      /\ notEqual (p_Const VNil) (p_Const (VBool false)) = inl isNotEqual
      /\ isEqual context_Background VNil [] = ((VBool true, None), [])
      /\ isNotEqual context_Background VNil [] = ((VBool false, None), []))
  /\ EvaluateWithContext X0 (TolerantFull X0) context_Background "absent == nil"
       (VMap [("flag", VBool false)]) [] = Done ((VBool true, None), [])
  /\ EvaluateWithContext X0 (TolerantFull X0) context_Background "flag == nil"
       (VMap [("flag", VBool false)]) [] = Done ((VBool true, None), [])
  /\ EvaluateWithContext X0 (TolerantFull X0) context_Background "flag != nil"
       (VMap [("flag", VBool false)]) [] = Done ((VBool false, None), []).
Proof.
  split; [|repeat split; vm_compute; reflexivity].
  apply (tolerant_equality X0 (p_Const VNil) (p_Const (VBool false))
           context_Background VNil VNil (VBool false) [] [] []);
    [reflexivity | reflexivity | by left | by right].
Defined.

(** *** Selector resolution *)

Lemma selectPath_step (behavior : MissingFieldBehavior) (keys : list string) (i : nat)
    (k : string) (rest : list string) (v : value) (h : heap) :
  selectPath behavior keys i (k :: rest) v h
  = match selectStep k v h with
    | Some val => selectPath behavior keys (S i) rest val h
    | None => handleMissingField behavior (firstn (S i) keys)
    end.
Proof. by destruct v. Qed.

Lemma index_cell_Some (h : heap) (p : addr) (k : string) (x : value) :
  index_cell h p k = Some x
  <-> exists idx, strconv_Atoi k = Some idx
                  /\ (0 <= idx < Z.of_nat (length (cell h p)))%Z
                  /\ cell h p !! Z.to_nat idx = Some x.
Proof.
  unfold index_cell. split.
  - destruct (strconv_Atoi k) as [idx|]; [|discriminate].
    destruct ((0 <=? idx)%Z && (idx <? Z.of_nat (length (cell h p)))%Z) eqn:Hin;
      [|discriminate].
    intros Hx. exists idx. repeat split; [lia..|done].
  - intros (idx & -> & Hin & Hx).
    replace ((0 <=? idx)%Z && (idx <? Z.of_nat (length (cell h p)))%Z) with true; [done|].
    symmetry. apply andb_true_iff. split; lia.
Qed.

(** C7.  A path is resolved key by key from the input value, each key in the
    value the previous one selected.  In a list a key selects only if it reads
    as an integer that is not negative and within bounds.  Where a key selects
    nothing, the strict policy fails with the error naming the keys tried so
    far joined by dots, and the permissive policies answer false or nil.  On
    [{"a": {"b": [10, 20]}}]: [a.b[1]] is 20 under every policy, [a.b[5]] and
    [a.b["x"]] fail strictly with the paths a.b.5 and a.b.x, and [a.b[5]]
    is false or nil permissively. *)
Theorem selector_resolution (X : Externals) (behavior : MissingFieldBehavior)
    (keys : list string) (i : nat) (k : string) (rest : list string) (v : value) (h : heap) :
  selectPath behavior keys i [] v h = (v, None)
  /\ selectPath behavior keys i (k :: rest) v h
     = match selectStep k v h with
       | Some val => selectPath behavior keys (S i) rest val h
       | None => handleMissingField behavior (firstn (S i) keys)
       end
  /\ (forall p x,
        selectStep k (VSlice p) h = Some x
        <-> exists idx, strconv_Atoi k = Some idx
                        /\ (0 <= idx < Z.of_nat (length (cell h p)))%Z
                        /\ cell h p !! Z.to_nat idx = Some x)
  /\ handleMissingField ErrorOnMissingField (firstn (S i) keys)
     = (VNil, Some (Errorf "unknown parameter %s" [AS (strings_Join (firstn (S i) keys) ".")]))
  /\ handleMissingField FalseOnMissingField (firstn (S i) keys) = (VBool false, None)
  /\ handleMissingField NilOnMissingField (firstn (S i) keys) = (VNil, None)
  /\ Evaluate X "a.b[1]" nested [WithMissingFieldBehavior X behavior] nestedHeap
     = Done ((VFloat 20, None), nestedHeap)
  /\ Evaluate X "a.b[5]" nested [WithMissingFieldBehavior X ErrorOnMissingField] nestedHeap
     = Done ((VNil, Some (Errorf "unknown parameter %s" [AS "a.b.5"])), nestedHeap)
  /\ Evaluate X ("a.b[" ++ quoted "x" ++ "]") nested
       [WithMissingFieldBehavior X ErrorOnMissingField] nestedHeap
     = Done ((VNil, Some (Errorf "unknown parameter %s" [AS "a.b.x"])), nestedHeap)
  /\ Evaluate X "a.b[0 - 1]" nested [WithMissingFieldBehavior X ErrorOnMissingField] nestedHeap
     = Done ((VNil, Some (Errorf "unknown parameter %s" [AS "a.b.-1"])), nestedHeap)
  /\ Evaluate X "a.b[5]" nested [WithMissingFieldBehavior X FalseOnMissingField] nestedHeap
     = Done ((VBool false, None), nestedHeap)
  /\ Evaluate X "a.b[5]" nested [WithMissingFieldBehavior X NilOnMissingField] nestedHeap
     = Done ((VNil, None), nestedHeap).
Proof.
  split; [reflexivity|]. split; [apply selectPath_step|].
  split; [intros p x; apply index_cell_Some|].
  do 3 (split; [reflexivity|]).
  split; [destruct behavior; vm_compute; reflexivity|].
  repeat split; vm_compute; reflexivity.
Qed.

(** *** The ternary operator *)

Lemma nil_or_zero_spec (x : value) :
  nil_or_zero x = true <-> x = VNil \/ IsZero x = true.
Proof. destruct x; simpl; intuition discriminate. Qed.

Lemma ifEvaluable_run (e a b : Evaluable) (c : context) (v x : value) (h h1 : heap) :
  e c v h = ((x, None), h1) ->
  ifEvaluable e a b c v h = if nil_or_zero x then b c v h1 else a c v h1.
Proof. intros He. unfold ifEvaluable, bindE. rewrite He. by destruct (nil_or_zero x). Qed.

Lemma ifEvaluable_error (e a b : Evaluable) (c : context) (v x : value) (err : goerror)
    (h h1 : heap) :
  e c v h = ((x, Some err), h1) -> ifEvaluable e a b c v h = ((VNil, Some err), h1).
Proof. intros He. unfold ifEvaluable, bindE. by rewrite He. Qed.

(** How [parseIf] reads the branches. *)
Lemma parseIf_branches (X : Externals) (p : Parser) (e a : Evaluable) (s s1 s2 : PState) (tok : rune) :
  pParseExpression p s = Done (a, s1) -> Scan X s1 = Done (tok, s2) ->
  (tok = scanner_EOF -> parseIf X p e s = Done (ifEvaluable e a (p_Const VNil), s2))
  /\ (tok = rune_of ":" ->
      forall b s3, pParseExpression p s2 = Done (b, s3) ->
                   parseIf X p e s = Done (ifEvaluable e a b, s3))
  /\ (tok <> scanner_EOF -> tok <> rune_of ":" ->
      parseIf X p e s = Failed (Expected "<> ? <> : <>" [rune_of ":"; scanner_EOF] s2)).
Proof.
  intros Ha Hscan. unfold parseIf, bindP. rewrite Ha, Hscan. repeat split.
  - intros ->. reflexivity.
  - intros -> b s3 Hb. simpl. by rewrite Hb.
  - intros H1 H2.
    destruct (Z.eqb_spec tok (rune_of ":")) as [|_]; [done|].
    destruct (Z.eqb_spec tok scanner_EOF) as [|_]; [done|]. reflexivity.
Qed.

(** C4 (the claim as it stands fails).  A [?] clause that is not followed by
    [:] gets no else branch unless the input ends there: inside parentheses
    and inside an array literal, [0 ? 2] does not evaluate to nil, it is
    refused by the parser. *)
Lemma else_is_optional_at_the_end_only :
  Evaluate X0 "(0 ? 2)" VNil [] []
  = Failed (Errorf "unexpected %s while scanning %s expected %s"
              [AZ (rune_of ")"); AS "<> ? <> : <>"; AZ (rune_of ":"); AZ scanner_EOF])
  /\ Evaluate X0 "[0 ? 2, 3]" VNil [] []
     = Failed (Errorf "unexpected %s while scanning %s expected %s"
                 [AZ (rune_of ","); AS "<> ? <> : <>"; AZ (rune_of ":"); AZ scanner_EOF])
  /\ Evaluate X0 "0 ? 2" VNil [] [] = Done ((VNil, None), []).
Proof. repeat split; vm_compute; reflexivity. Qed.

(** C4 (as amended).  The evaluator of [e ? a : b] evaluates [e], then only
    the branch it selects: [b] exactly when the condition is nil or the zero
    value of its type, [a] otherwise; the answer and the heap are those of
    that branch.  After the then branch [parseIf] reads one token: at the end
    of the input the else branch is a constant nil, after [:] it is the
    expression that follows, and any other token is a parse error that
    expects [:] or the end of the input.  So [1 ? 2 : 3] is 2, [0 ? 2 : 3] is
    3, [1 ? 2] is 2 and [0 ? 2] is nil, while [(0 ? 2)], [[0 ? 2, 3]] and
    [0 ? 2 3] are refused; with the else branch written out the clause is
    accepted inside parentheses and array literals. *)
Theorem ternary (X : Externals) (e a b : Evaluable) (c : context) (v x : value)
    (h h1 : heap) :
  e c v h = ((x, None), h1) ->
  ifEvaluable e a b c v h = (if nil_or_zero x then b c v h1 else a c v h1)
  /\ (nil_or_zero x = true <-> x = VNil \/ IsZero x = true)
  /\ (forall p s s1 s2 s3 tok,
        pParseExpression p s = Done (a, s1) -> Scan X s1 = Done (tok, s2) ->
        (tok = scanner_EOF -> parseIf X p e s = Done (ifEvaluable e a (p_Const VNil), s2))
        /\ (tok = rune_of ":" -> pParseExpression p s2 = Done (b, s3) ->
            parseIf X p e s = Done (ifEvaluable e a b, s3))
        /\ (tok <> scanner_EOF -> tok <> rune_of ":" ->
            parseIf X p e s
            = Failed (Expected "<> ? <> : <>" [rune_of ":"; scanner_EOF] s2)))
  /\ operators (full X) !! "?" = Some (DefPostfix (parseIf X))
  /\ Evaluate X "1 ? 2 : 3" VNil [] [] = Done ((VFloat 2, None), [])
  /\ Evaluate X "0 ? 2 : 3" VNil [] [] = Done ((VFloat 3, None), [])
  /\ Evaluate X "1 ? 2" VNil [] [] = Done ((VFloat 2, None), [])
  /\ Evaluate X "0 ? 2" VNil [] [] = Done ((VNil, None), [])
  /\ Evaluate X "(0 ? 2)" VNil [] []
     = Failed (Errorf "unexpected %s while scanning %s expected %s"
                 [AZ (rune_of ")"); AS "<> ? <> : <>"; AZ (rune_of ":"); AZ scanner_EOF])
  /\ Evaluate X "[0 ? 2, 3]" VNil [] []
     = Failed (Errorf "unexpected %s while scanning %s expected %s"
                 [AZ (rune_of ","); AS "<> ? <> : <>"; AZ (rune_of ":"); AZ scanner_EOF])
  /\ Evaluate X "0 ? 2 3" VNil [] []
     = Failed (Errorf "unexpected %s while scanning %s expected %s"
                 [AZ scanner_Int; AS "<> ? <> : <>"; AZ (rune_of ":"); AZ scanner_EOF])
  /\ Evaluate X "(0 ? 2 : 3)" VNil [] [] = Done ((VFloat 3, None), [])
  /\ Evaluate X "[0 ? 2 : 1, 3]" VNil [] []
     = Done ((VSlice 0, None), [[VFloat 1; VFloat 3]]).
Proof.
  intros He. split; [by apply ifEvaluable_run|]. split; [apply nil_or_zero_spec|].
  split.
  { intros p s s1 s2 s3 tok Ha Hscan.
    destruct (parseIf_branches X p e a s s1 s2 tok Ha Hscan) as (Heof & Hcolon & Hother).
    split; [done|]. split; [|done]. intros Htok Hb. by apply Hcolon. }
  split.
  { unfold full, ternaryOperator. generalize (parseIf X). intros f. vm_compute. reflexivity. }
  repeat split; vm_compute; reflexivity.
Qed.

(** An instance: a condition that is the zero of its type selects the else
    branch, and the then branch, which would fail, is not evaluated. *)
Lemma ternary_witness :
  ifEvaluable (p_Const (VString EmptyString)) (fun _ _ => raise unmodelled)
              (p_Const (VInt 7)) context_Background VNil []
  = ((VInt 7, None), []).
Proof.
  destruct (ternary X0 (p_Const (VString EmptyString)) (fun _ _ => raise unmodelled)
              (p_Const (VInt 7)) context_Background VNil (VString EmptyString) [] [])
    as [Hrun _]; [reflexivity|].
  exact Hrun.
Defined.

(** *** Cancellation *)

Lemma fillArray_ignoresContext (evals : list Evaluable) :
  Forall ignoresContext evals ->
  forall i p c1 c2 v h, fillArray evals i p c1 v h = fillArray evals i p c2 v h.
Proof.
  induction 1 as [|e evals He _ IH]; intros i p c1 c2 v h; simpl; [done|].
  rewrite (He c1 c2). destruct (e c2 v h) as [[x [err|]] h1]; [done|]. apply IH.
Qed.

Lemma EvalString_ignoresContext (X : Externals) (e : Evaluable) :
  ignoresContext e ->
  forall c1 c2 v h, EvalString X e c1 v h = EvalString X e c2 v h.
Proof. intros He c1 c2 v h. unfold EvalString. by rewrite (He c1 c2). Qed.

Lemma fillObject_ignoresContext (X : Externals) (evals : list (Evaluable * Evaluable)) :
  Forall (fun kv => ignoresContext (fst kv) /\ ignoresContext (snd kv)) evals ->
  forall vs c1 c2 v h, fillObject X evals vs c1 v h = fillObject X evals vs c2 v h.
Proof.
  induction 1 as [|[key val] evals [Hkey Hval] _ IH]; intros vs c1 c2 v h; simpl; [done|].
  simpl in *. rewrite (Hval c1 c2).
  destruct (val c2 v h) as [[x [err|]] h1]; [done|].
  rewrite (EvalString_ignoresContext X key Hkey c1 c2).
  destruct (EvalString X key c2 v h1) as [[k [err|]] h2]; [done|]. apply IH.
Qed.

(** The loop of an array literal over a first part of its elements that
    evaluate without touching the heap. *)
Lemma fillArray_prefix (pre rest : list Evaluable) (c : context) (v : value) (h : heap) :
  forall (xs done tpre tpost : list value),
    Forall2 (fun e x => yields e c v h x) pre xs ->
    length tpre = length pre ->
    fillArray (pre ++ rest) (length done) (length h) c v (h ++ [done ++ tpre ++ tpost])%list
    = fillArray rest (length (done ++ xs)%list) (length h) c v
        (h ++ [done ++ xs ++ tpost])%list.
Proof.
  induction pre as [|e pre IH]; intros xs done tpre tpost Hxs Hlen.
  - inversion Hxs; subst. destruct tpre; [|discriminate]. simpl. by rewrite app_nil_r.
  - inversion Hxs as [|? x ? xs' He Hrest]; subst.
    destruct tpre as [|t tpre]; [discriminate|]. simpl in Hlen. simpl.
    rewrite (He [done ++ t :: tpre ++ tpost]%list).
    replace (store (length h) (length done) x (h ++ [done ++ t :: tpre ++ tpost])%list)
      with (h ++ [(done ++ [x]) ++ tpre ++ tpost])%list.
    + replace (S (length done)) with (length (done ++ [x])%list)
        by (rewrite length_app; simpl; lia).
      rewrite (IH xs' (done ++ [x])%list tpre tpost Hrest); [|lia].
      by rewrite <- !app_assoc.
    + unfold store, cell.
      rewrite lookup_app_r by lia. rewrite Nat.sub_diag. simpl.
      rewrite insert_app_r_alt by lia. rewrite Nat.sub_diag. simpl.
      rewrite insert_app_r_alt by lia. rewrite Nat.sub_diag. simpl.
      by rewrite <- app_assoc.
Qed.

Lemma arrayEvaluable_yields (evals : list Evaluable) (c : context) (v : value)
    (h : heap) (xs : list value) :
  Forall2 (fun e x => yields e c v h x) evals xs ->
  arrayEvaluable evals c v h = ((VSlice (length h), None), (h ++ [xs])%list).
Proof.
  intros Hxs. unfold arrayEvaluable, alloc.
  pose proof (fillArray_prefix evals [] c v h xs [] (repeat VNil (length evals)) [] Hxs)
    as Hfill.
  rewrite !app_nil_r in Hfill. simpl in Hfill. apply Hfill. apply repeat_length.
Qed.

Lemma arrayEvaluable_stops (pre : list Evaluable) (e : Evaluable) (post : list Evaluable)
    (c : context) (v : value) (h h1 : heap) (xs : list value) (x : value) (err : goerror) :
  Forall2 (fun e x => yields e c v h x) pre xs ->
  e c v (h ++ [xs ++ repeat VNil (S (length post))])%list = ((x, Some err), h1) ->
  arrayEvaluable (pre ++ e :: post) c v h = ((VNil, Some err), h1).
Proof.
  intros Hxs He. unfold arrayEvaluable, alloc. cbn [fst snd].
  replace (repeat VNil (length (pre ++ e :: post)%list))
    with ([] ++ repeat VNil (length pre) ++ repeat VNil (S (length post)))%list.
  - change 0 with (length (@nil value)).
    rewrite (fillArray_prefix pre (e :: post) c v h xs [] _ _ Hxs (repeat_length _ _)).
    cbn [fillArray app]. by rewrite He.
  - rewrite length_app. cbn [length app]. by rewrite repeat_app.
Qed.

(** C5 (as stated) fails: the handle is cancelled, and the compiled ternary
    still produces its value, with no error. *)
Lemma cancelled_handle_is_not_checked :
  ctx_Err context_Canceled = Some (Errorf "context canceled" [])
  /\ EvaluateWithContext X0 (full X0) context_Canceled "1 ? 2 : 3" VNil []
     = Done ((VFloat 2, None), [])
  /\ EvaluateWithContext X0 (full X0) context_Canceled "[1, 2 ? 3 : 4]" VNil []
     = Done ((VSlice 0, None), [[VFloat 1; VFloat 3]]).
Proof. repeat split; vm_compute; reflexivity. Qed.

(** C5 (as amended).  Not every compiled evaluator checks the cancellation
    handle: the evaluators that [parseIf] and [parseJSONArray] build do not.
    They hand the handle they were given to the sub-evaluators they run, and
    return the first error one of those returns (a cancellation included) at
    once, running nothing more.  The ternary runs the condition, then the
    branch it selects.  The array literal runs its elements in order: if the
    elements before one evaluate without touching the heap and that one
    fails, its error is the answer and the heap is as it left it; if all
    evaluate so, the answer is the new array of their values.  So a condition
    or an element that checks the handle makes the whole return the
    cancellation, and where the sub-evaluators ignore the handle the whole
    ignores it: invoked with a handle that is already cancelled, the compiled
    [1 ? 2 : 3] answers 2 and [[1, 2]] answers the list. *)
Theorem evaluators_pass_the_handle_on (X : Externals) :
  (forall e a b c v h,
     ifEvaluable e a b c v h
     = match e c v h with
       | ((x, None), h1) => if nil_or_zero x then b c v h1 else a c v h1
       | ((_, Some err), h1) => ((VNil, Some err), h1)
       end)
  /\ (forall pre e post c v h h1 xs x err,
        Forall2 (fun e x => yields e c v h x) pre xs ->
        e c v (h ++ [xs ++ repeat VNil (S (length post))])%list = ((x, Some err), h1) ->
        arrayEvaluable (pre ++ e :: post) c v h = ((VNil, Some err), h1))
  /\ (forall evals c v h xs,
        Forall2 (fun e x => yields e c v h x) evals xs ->
        arrayEvaluable evals c v h = ((VSlice (length h), None), (h ++ [xs])%list))
  /\ (forall e a b c v h err,
        ctx_Err c = Some err -> ifEvaluable (checked e) a b c v h = ((VNil, Some err), h))
  /\ (forall pre e post c v h xs err,
        ctx_Err c = Some err ->
        Forall2 (fun e x => yields e c v h x) pre xs ->
        arrayEvaluable (pre ++ checked e :: post) c v h
        = ((VNil, Some err), (h ++ [xs ++ repeat VNil (S (length post))])%list))
  /\ (forall e a b,
        ignoresContext e -> ignoresContext a -> ignoresContext b ->
        ignoresContext (ifEvaluable e a b))
  /\ (forall evals, Forall ignoresContext evals -> ignoresContext (arrayEvaluable evals))
  /\ (forall evals,
        Forall (fun kv => ignoresContext (fst kv) /\ ignoresContext (snd kv)) evals ->
        ignoresContext (objectEvaluable X evals))
  /\ EvaluateWithContext X (full X) context_Canceled "1 ? 2 : 3" VNil []
     = Done ((VFloat 2, None), [])
  /\ EvaluateWithContext X (full X) context_Canceled "[1, 2]" VNil []
     = Done ((VSlice 0, None), [[VFloat 1; VFloat 2]]).
Proof.
  assert (Hif : forall e a b c v h,
             ifEvaluable e a b c v h
             = match e c v h with
               | ((x, None), h1) => if nil_or_zero x then b c v h1 else a c v h1
               | ((_, Some err), h1) => ((VNil, Some err), h1)
               end).
  { intros e a b c v h. unfold ifEvaluable, bindE.
    destruct (e c v h) as [[x [err|]] h1]; [done|]. by destruct (nil_or_zero x). }
  split; [exact Hif|]. split; [|split; [|split; [|split; [|split; [|split; [|split]]]]]].
  - intros pre e post c v h h1 xs x err. apply arrayEvaluable_stops.
  - intros evals c v h xs. apply arrayEvaluable_yields.
  - intros e a b c v h err Hc. rewrite Hif. unfold checked. by rewrite Hc.
  - intros pre e post c v h xs err Hc Hxs.
    apply (arrayEvaluable_stops pre (checked e) post c v h _ xs VNil err Hxs).
    unfold checked. by rewrite Hc.
  - intros e a b He Ha Hb c1 c2 v h. rewrite !Hif, (He c1 c2).
    destruct (e c2 v h) as [[x [err|]] h1]; [done|].
    destruct (nil_or_zero x); [apply Hb | apply Ha].
  - intros evals Hevals c1 c2 v h. unfold arrayEvaluable, alloc.
    by apply fillArray_ignoresContext.
  - intros evals Hevals c1 c2 v h. by apply fillObject_ignoresContext.
  - split; vm_compute; reflexivity.
Qed.

(** *** Short-circuit operators *)

Lemma full_forms (X : Externals) :
  operators (full X) !! "&&" = Some (DefInfix andForms)
  /\ operators (full X) !! "||" = Some (DefInfix orForms)
  /\ operators (full X) !! "??" = Some (DefInfix coalesceForms).
Proof. repeat split; vm_compute; reflexivity. Qed.

Lemma full_short_precedences (X : Externals) :
  precedenceOf (full X) "&&" = 21%Z /\ precedenceOf (full X) "||" = 20%Z
  /\ precedenceOf (full X) "??" = 0%Z.
Proof. repeat split; vm_compute; reflexivity. Qed.

Lemma full_operators (X : Externals) :
  operatorOf X (full X) "&&" = Some (OpInfix (infixBuilderOf X andForms "&&") 21)
  /\ operatorOf X (full X) "||" = Some (OpInfix (infixBuilderOf X orForms "||") 20)
  /\ operatorOf X (full X) "??" = Some (OpInfix (infixBuilderOf X coalesceForms "??") 0).
Proof.
  destruct (full_forms X) as (Fand & For & Fco).
  destruct (full_short_precedences X) as (Pand & Por & Pco).
  unfold operatorOf. by rewrite Fand, For, Fco, Pand, Por, Pco.
Qed.

(** The evaluator an infix operator compiles to when it has the short-circuit
    predicate [shortF], run with a handle that is not done. *)
Lemma short_circuit_run (X : Externals) (forms : infixForms) (name : string)
    (shortF : value -> value * bool) (a b : Evaluable) (c : context) (v x : value)
    (h h1 : heap) :
  formShortCircuit forms = Some shortF ->
  ctx_Err c = None ->
  a c v h = ((x, None), h1) ->
  exists eval,
    infixBuilderOf X forms name a b = inl eval
    /\ eval c v h
       = if snd (shortF x) then ((fst (shortF x), None), h1)
         else (try av := a c v in try bv := b c v in applyInfix X forms name av bv) h1.
Proof.
  intros Hshort Hc Ha. unfold infixBuilderOf. eexists. split; [reflexivity|].
  unfold checked. rewrite Hc, Hshort. unfold bindE at 1. rewrite Ha.
  by destruct (shortF x) as [r []].
Qed.




(** *** Precedence *)

Lemma push_reduces (a b : stage) (rest : stageStack) (builder : infixBuilder)
    (eval : Evaluable) :
  (stPrecedence b <= stPrecedence a)%Z -> stInfixBuilder a = Some builder ->
  builder (stEvaluable a) (stEvaluable b) = inl eval ->
  push (a :: rest) b
  = push rest {| stEvaluable := eval; stInfixBuilder := stInfixBuilder b;
                 stPrecedence := stPrecedence b |}.
Proof.
  intros Hle Hb He. simpl. destruct (Z.leb_spec (stPrecedence b) (stPrecedence a)); [|lia].
  by rewrite Hb, He.
Qed.

Lemma push_shifts (a b : stage) (rest : stageStack) :
  (stPrecedence a < stPrecedence b)%Z -> push (a :: rest) b = inl (b :: a :: rest).
Proof.
  intros Hlt. simpl. destruct (Z.leb_spec (stPrecedence b) (stPrecedence a)); [lia|done].
Qed.

Lemma full_precedences (X : Externals) :
  precedenceOf (full X) "+" = 120%Z /\ precedenceOf (full X) "-" = 120%Z
  /\ precedenceOf (full X) "*" = 150%Z /\ precedenceOf (full X) "/" = 150%Z
  /\ precedenceOf (full X) "**" = 200%Z.
Proof. repeat split; vm_compute; reflexivity. Qed.

(** C2 (as amended).  Pushing a stage reduces the stack while the new
    operator's precedence is less than or equal to the one on top, combining
    the operand on top with the new one, and shifts otherwise; so operators of
    equal precedence group to the left.  With the precedences of the full
    language ([+] 120, [*] 150, [**] 200): [2 + 3 * 4] is 14, [(2 + 3) * 4] is
    20, [2 - 3 - 4] is -5, and [2 ** 3 ** 2] is (2 ** 3) ** 2 = 64. *)
Theorem precedence_climbing (X : Externals) :
  math_Pow X 2 3 = 8%float -> math_Pow X 8 2 = 64%float ->
  (forall a b rest builder eval,
      (stPrecedence b <= stPrecedence a)%Z -> stInfixBuilder a = Some builder ->
      builder (stEvaluable a) (stEvaluable b) = inl eval ->
      push (a :: rest) b
      = push rest {| stEvaluable := eval; stInfixBuilder := stInfixBuilder b;
                     stPrecedence := stPrecedence b |})
  /\ (forall a b rest,
        (stPrecedence a < stPrecedence b)%Z -> push (a :: rest) b = inl (b :: a :: rest))
  /\ (precedenceOf (full X) "+" = 120%Z /\ precedenceOf (full X) "-" = 120%Z
      /\ precedenceOf (full X) "*" = 150%Z /\ precedenceOf (full X) "/" = 150%Z
      /\ precedenceOf (full X) "**" = 200%Z)
  /\ Evaluate X "2 + 3 * 4" VNil [] [] = Done ((VFloat 14, None), [])
  /\ Evaluate X "(2 + 3) * 4" VNil [] [] = Done ((VFloat 20, None), [])
  /\ Evaluate X "2 - 3 - 4" VNil [] [] = Done ((VFloat (-5), None), [])
  /\ Evaluate X "2 ** 3 ** 2" VNil [] [] = Done ((VFloat 64, None), []).
Proof.
  intros Hcube Hsquare.
  split; [apply push_reduces|]. split; [apply push_shifts|].
  split; [apply full_precedences|].
  split; [vm_compute; reflexivity|]. split; [vm_compute; reflexivity|].
  split; [vm_compute; reflexivity|].
  assert (Hparsed : Evaluate X "2 ** 3 ** 2" VNil [] []
                    = Done ((VFloat (math_Pow X (math_Pow X 2 3) 2), None), []))
    by (vm_compute; reflexivity).
  rewrite Hparsed, Hcube, Hsquare. reflexivity.
Qed.

Lemma precedence_climbing_witness :
  Evaluate X0 "2 + 3 * 4" VNil [] [] = Done ((VFloat 14, None), [])
  /\ Evaluate X0 "2 ** 3 ** 2" VNil [] [] = Done ((VFloat 64, None), []).
Proof.
  destruct (precedence_climbing X0) as (_ & _ & _ & Hsum & _ & _ & Hpow);
    [vm_compute; reflexivity | vm_compute; reflexivity |].
  split; [exact Hsum | exact Hpow].
Defined.

(** C2 (as stated) fails: [2 ** 3 ** 2] is 64, which is not 512. *)
Lemma power_groups_left :
  Evaluate X0 "2 ** 3 ** 2" VNil [] [] = Done ((VFloat 64, None), [])
  /\ Evaluate X0 "(2 ** 3) ** 2" VNil [] [] = Done ((VFloat 64, None), [])
  /\ Evaluate X0 "2 ** (3 ** 2)" VNil [] [] = Done ((VFloat 512, None), [])
  /\ PrimFloat.eqb 64 512 = false.
Proof. repeat split; vm_compute; reflexivity. Qed.

(** *** Composition *)

Lemma later_None {A} (x : option A) : later x None = x.
Proof. by destruct x. Qed.

Lemma later_idemp {A} (x : option A) : later x x = x.
Proof. by destruct x. Qed.

Lemma mergeDef_idemp (d : operatorDef) : mergeDef d d = d.
Proof. destruct d as [[]| |]; simpl; [|done..]. unfold mergeForms. simpl.
  by rewrite !later_idemp. Qed.

Lemma merge_operators (A B : Language) (name : string) :
  operators (merge A B) !! name
  = match operators B !! name, operators A !! name with
    | Some new, Some old => Some (mergeDef new old)
    | Some new, None => Some new
    | None, old => old
    end.
Proof.
  unfold merge. simpl. rewrite lookup_union_with.
  by destruct (operators B !! name), (operators A !! name).
Qed.

Lemma merge_precedences (A B : Language) (name : string) :
  precedences (merge A B) !! name = later (precedences B !! name) (precedences A !! name).
Proof.
  unfold merge. simpl. destruct (precedences B !! name) as [x|] eqn:Hk; simpl.
  - by rewrite (lookup_union_Some_l _ _ _ x Hk).
  - by rewrite (lookup_union_r _ _ _ Hk).
Qed.

Lemma merge_prefixes (A B : Language) (k : rune + string) :
  prefixes (merge A B) !! k = later (prefixes B !! k) (prefixes A !! k).
Proof.
  unfold merge. simpl. destruct (prefixes B !! k) as [x|] eqn:Hk; simpl.
  - by rewrite (lookup_union_Some_l _ _ _ x Hk).
  - by rewrite (lookup_union_r _ _ _ Hk).
Qed.

Lemma merge_newLanguage (l : Language) : merge newLanguage l = l.
Proof.
  destruct l as [pre ops precs sel i d]. unfold merge, newLanguage. simpl.
  rewrite !(right_id_L ∅ (∪)), !later_None. f_equal.
  apply map_eq. intros name. rewrite lookup_union_with, lookup_empty.
  by destruct (ops !! name).
Qed.

Lemma merge_idemp (l : Language) : merge l l = l.
Proof.
  destruct l as [pre ops precs sel i d]. unfold merge. simpl.
  rewrite !(idemp_L (∪)), !later_idemp. f_equal.
  apply map_eq. intros name. rewrite lookup_union_with.
  destruct (ops !! name); simpl; [|done]. by rewrite mergeDef_idemp.
Qed.

Lemma NewLanguage_two (A B : Language) : NewLanguage [A; B] = merge A B.
Proof. unfold NewLanguage. simpl. by rewrite merge_newLanguage. Qed.


